(** * The active object of [main.cpp]: dispatch queue, worker loop and the
      four calling conventions, as a transition system over an explicit state.

    The C++ closures ([Operation = std::function<void()>]) are represented by
    the constructors of [Operation], one per lambda of the source, carrying
    what the lambda captures; [exec] is the body of each lambda.  Threads
    are interleaved by [step]: one call of [step] is one atomic action of one
    thread (a critical section of the queue's mutex, an atomic load of
    [done], the body of one operation, a rendez-vous on a promise).  The
    memory is sequentially consistent.

    An [int] is an integer of [Z] (the program does no arithmetic on them),
    the [double] field [val] a binary64 float.  The state carries the
    history of the execution ([trace]): the puts, the executions, the
    accesses to [val] and the returns of the calls, in the order they
    happened; the program never reads it. *)

From Stdlib Require Import ZArith String Ascii.
From Stdlib Require Import Floats.PrimFloat.
From stdpp Require Import base tactics option list gmap.

Local Open Scope Z_scope.

(** ** Data *)

(** Caller-owned [int] variables are named by a location, and every
    [std::promise] local to a call by a fresh identifier. *)
Definition loc := nat.
Definition promise := nat.

Inductive thread :=
| Worker                 (* the std::thread [runnable] executing [run] *)
| Caller (t : nat).      (* any thread invoking the public operations *)

(** What a promise holds once [set_value] was called on it. *)
Inductive pvalue :=
| PInt (v : Z)           (* std::promise<int>  *)
| PVoid.                 (* std::promise<void> *)

(** The lambdas of [main.cpp]. *)
Inductive Operation :=
| SetDone                                     (* [&]() { done = true; } *)
| Return999 (return_val : promise)            (* doSomething *)
| SetVal                                      (* [this]() { this->val = 2.0; } *)
| PrintParams (a b : Z)                       (* [a, b]() { ... } *)
| MutateRefs (a b : loc) (return_val : promise). (* [&a, &b, &return_val]() { ... } *)

Global Instance thread_eq_dec : EqDecision thread.
Proof. solve_decision. Defined.
Global Instance pvalue_eq_dec : EqDecision pvalue.
Proof. solve_decision. Defined.
Global Instance Operation_eq_dec : EqDecision Operation.
Proof. solve_decision. Defined.

(** What [std::cout] received, item by item. *)
Inductive out_item :=
| OutStr (s : string)
| OutInt (n : Z).

(** The memory the closures act on: the fields [val] and [done] of
    [BecomeActiveObject], the callers' variables bound by reference, the
    promises, and the standard output. *)
Record Memory := mkMemory {
  val : float;
  done : bool;
  vars : gmap loc Z;
  promises : gmap promise pvalue;
  cout : list out_item
}.

Definition set_val (x : float) (m : Memory) : Memory :=
  mkMemory x (done m) (vars m) (promises m) (cout m).
Definition set_done (b : bool) (m : Memory) : Memory :=
  mkMemory (val m) b (vars m) (promises m) (cout m).
Definition store (x : loc) (v : Z) (m : Memory) : Memory :=
  mkMemory (val m) (done m) (<[x := v]> (vars m)) (promises m) (cout m).
Definition print (items : list out_item) (m : Memory) : Memory :=
  mkMemory (val m) (done m) (vars m) (promises m) (cout m ++ items).

(** An [int] variable that was never written reads as 0 in the model. *)
Definition load (x : loc) (m : Memory) : Z := default 0 (vars m !! x).

(** [std::promise::set_value]: stores the value; a second call on the same
    promise throws [std::future_error], rendered by [None]. *)
Definition set_value (p : promise) (v : pvalue) (m : Memory) : option Memory :=
  match promises m !! p with
  | Some _ => None
  | None => Some (mkMemory (val m) (done m) (vars m) (<[p := v]> (promises m)) (cout m))
  end.

Definition newline : string := String (ascii_of_nat 10) EmptyString.

(** The body of each lambda. *)
Definition exec (op : Operation) (m : Memory) : option Memory :=
  match op with
  | SetDone => Some (set_done true m)
  | Return999 return_val =>
      let ret := 999 in
      set_value return_val (PInt ret) m
  | SetVal => Some (set_val 2%float m)
  | PrintParams a b =>
      let m := print [OutStr "this is the internal implementation of doSomethingWithParams("] m in
      Some (print [OutInt a; OutStr ","; OutInt b; OutStr (")" ++ newline)] m)
  | MutateRefs a b return_val =>
      let m := print [OutStr "this is the internal implementation of doSomethingWithReferenceParams("] m in
      let m := print [OutInt (load a m); OutStr ","; OutInt (load b m); OutStr (")" ++ newline)] m in
      let m := store a 1234 m in
      let m := store b 5678 m in
      set_value return_val PVoid m
  end.

(** ** DispatchQueue *)

Module DispatchQueue.

(** [std::queue<Operation> ops_queue]: the front is the head of the list.
    The mutex [qlock] makes [put] and [take] atomic; each is one function
    on the queue's content. *)
Definition t := list Operation.

Definition empty (q : t) : bool :=
  match q with [] => true | _ => false end.
Definition push (op : Operation) (q : t) : t := q ++ [op].
(** [front] and [pop] of an empty [std::queue] are undefined. *)
Definition front (q : t) : option Operation := head q.
Definition pop (q : t) : option t :=
  match q with [] => None | _ :: q' => Some q' end.

(** [put]: lock, push, notify. *)
Definition put (op : Operation) (q : t) : t := push op q.

Inductive take_result :=
| Blocked                         (* the wait predicate is false: keep waiting *)
| Taken (op : Operation) (q : t)  (* the operation returned and the queue left *)
| Undefined.                      (* front() or pop() of an empty queue *)

(** [take]: lock, [empty.wait(lock, pred)] with [pred = !ops_queue.empty()],
    then front and pop.  Whenever the waiting thread wakes up, notified or
    not, the predicate is evaluated again on the queue as it is then. *)
Definition take (q : t) : take_result :=
  if negb (empty q) then
    match front q, pop q with
    | Some op, Some q' => Taken op q'
    | _, _ => Undefined
    end
  else Blocked.

(** Several puts in a row, and up to [n] takes in a row. *)
Definition puts (ops : list Operation) (q : t) : t := foldl (fun q op => put op q) q ops.

Fixpoint takes (n : nat) (q : t) : list Operation * t :=
  match n with
  | O => ([], q)
  | S n' =>
      match take q with
      | Taken op q' => let '(ops, q'') := takes n' q' in (op :: ops, q'')
      | _ => ([], q)
      end
  end.

End DispatchQueue.

(** ** BecomeActiveObject *)

(** Where the worker thread is in [run]. *)
Inductive wstate :=
| AtLoop                    (* about to evaluate [!done] *)
| AtTake                    (* inside [dispatchQueue.take()] *)
| Running (op : Operation)  (* [take] has returned [op], about to call it *)
| Exited                    (* [run] has returned *)
| Faulted.                  (* undefined behaviour or an exception escaped *)

(** The public operations a caller may invoke; [CallDestructor] is the end
    of the object's lifetime. *)
Inductive call :=
| CallDoSomething
| CallDoSomethingElse
| CallDoSomethingWithParams (a b : Z)
| CallDoSomethingWithReferenceParams (a b : loc)
| CallGetVal
| CallDestructor.

(** Where a caller thread is: outside any call, or blocked inside one. *)
Inductive cstate :=
| Ready
| InDoSomething (return_val : promise)   (* in [return_val.get_future().get()] *)
| InDoSomethingWithReferenceParams (a b : loc) (return_val : promise)
| InDestructor.                          (* in [runnable.join()] *)

Inductive access := Read | Write.

Inductive retval :=
| RetVoid
| RetInt (v : Z)
| RetDouble (x : float).

(** What is recorded of an execution. *)
Inductive event :=
| EvPut (t : nat) (op : Operation)     (* [put(op)] returned in caller [t] *)
| EvExec (op : Operation)              (* the worker has run [op] to its end *)
| EvVal (t : thread) (k : access) (during : option Operation)
                                       (* [t] read or wrote the field [val],
                                          inside the operation [during] *)
| EvReturn (t : nat) (c : call) (r : retval). (* call [c] of caller [t] returned [r] *)

Record State := mkState {
  mem : Memory;
  dispatchQueue : DispatchQueue.t;
  runnable : wstate;
  callers : gmap nat cstate;
  next_promise : promise;
  trace : list event
}.

Definition with_mem (m : Memory) (s : State) : State :=
  mkState m (dispatchQueue s) (runnable s) (callers s) (next_promise s) (trace s).
Definition with_queue (q : DispatchQueue.t) (s : State) : State :=
  mkState (mem s) q (runnable s) (callers s) (next_promise s) (trace s).
Definition with_runnable (w : wstate) (s : State) : State :=
  mkState (mem s) (dispatchQueue s) w (callers s) (next_promise s) (trace s).
Definition with_caller (t : nat) (c : cstate) (s : State) : State :=
  mkState (mem s) (dispatchQueue s) (runnable s) (<[t := c]> (callers s))
          (next_promise s) (trace s).
Definition emit (evs : list event) (s : State) : State :=
  mkState (mem s) (dispatchQueue s) (runnable s) (callers s) (next_promise s)
          (trace s ++ evs).

(** A caller that never called anything is outside any call. *)
Definition caller_state (t : nat) (s : State) : cstate :=
  default Ready (callers s !! t).

(** A promise declared as a local of a call: a fresh identifier. *)
Definition new_promise (s : State) : promise * State :=
  (next_promise s,
   mkState (mem s) (dispatchQueue s) (runnable s) (callers s)
           (S (next_promise s)) (trace s)).

(** The constructor: [val(0), done(false)], empty queue, worker started. *)
Definition init : State :=
  mkState (mkMemory 0%float false ∅ ∅ []) [] AtLoop ∅ 0%nat [].

(** [dispatchQueue.put(op)] called by caller [t]. *)
Definition put (t : nat) (op : Operation) (s : State) : State :=
  emit [EvPut t op] (with_queue (DispatchQueue.put op (dispatchQueue s)) s).

(** Each public operation up to the point where it returns or blocks. *)
Definition doSomething (t : nat) (s : State) : State :=
  let '(return_val, s) := new_promise s in
  let s := put t (Return999 return_val) s in
  with_caller t (InDoSomething return_val) s.

Definition doSomethingElse (t : nat) (s : State) : State :=
  let s := put t SetVal s in
  emit [EvReturn t CallDoSomethingElse RetVoid] s.

Definition doSomethingWithParams (t : nat) (a b : Z) (s : State) : State :=
  let s := put t (PrintParams a b) s in
  emit [EvReturn t (CallDoSomethingWithParams a b) RetVoid] s.

Definition doSomethingWithReferenceParams (t : nat) (a b : loc) (s : State) : State :=
  let '(return_val, s) := new_promise s in
  let s := put t (MutateRefs a b return_val) s in
  with_caller t (InDoSomethingWithReferenceParams a b return_val) s.

Definition getVal (t : nat) (s : State) : State :=
  emit [EvVal (Caller t) Read None; EvReturn t CallGetVal (RetDouble (val (mem s)))] s.

Definition destructor (t : nat) (s : State) : State :=
  let s := put t SetDone s in
  with_caller t InDestructor s.

Definition invoke (t : nat) (c : call) (s : State) : option State :=
  match caller_state t s with
  | Ready =>
      Some match c with
           | CallDoSomething => doSomething t s
           | CallDoSomethingElse => doSomethingElse t s
           | CallDoSomethingWithParams a b => doSomethingWithParams t a b s
           | CallDoSomethingWithReferenceParams a b => doSomethingWithReferenceParams t a b s
           | CallGetVal => getVal t s
           | CallDestructor => destructor t s
           end
  | _ => None
  end.

(** The blocking tail of a call: [future.get()] returns once the promise is
    set, [join()] once [run] has returned.  [None]: still blocked. *)
Definition resume (t : nat) (s : State) : option State :=
  match caller_state t s with
  | Ready => None
  | InDoSomething return_val =>
      match promises (mem s) !! return_val with
      | Some (PInt v) =>
          Some (emit [EvReturn t CallDoSomething (RetInt v)] (with_caller t Ready s))
      | _ => None
      end
  | InDoSomethingWithReferenceParams a b return_val =>
      match promises (mem s) !! return_val with
      | Some PVoid =>
          Some (emit [EvReturn t (CallDoSomethingWithReferenceParams a b) RetVoid]
                     (with_caller t Ready s))
      | _ => None
      end
  | InDestructor =>
      match runnable s with
      | Exited => Some (emit [EvReturn t CallDestructor RetVoid] (with_caller t Ready s))
      | _ => None
      end
  end.

(** Code of the caller between two calls: an assignment to a variable. *)
Definition assign (t : nat) (x : loc) (v : Z) (s : State) : option State :=
  match caller_state t s with
  | Ready => Some (with_mem (store x v (mem s)) s)
  | _ => None
  end.

(** The accesses to the field [val] in the body of each lambda. *)
Definition val_accesses (op : Operation) : list access :=
  match op with
  | SetVal => [Write]
  | _ => []
  end.

(** One action of the worker in
    [while (!done) { dispatchQueue.take()(); }]. *)
Definition run_step (s : State) : option State :=
  match runnable s with
  | AtLoop => Some (with_runnable (if done (mem s) then Exited else AtTake) s)
  | AtTake =>
      match DispatchQueue.take (dispatchQueue s) with
      | DispatchQueue.Blocked => Some s
      | DispatchQueue.Taken op q => Some (with_runnable (Running op) (with_queue q s))
      | DispatchQueue.Undefined => Some (with_runnable Faulted s)
      end
  | Running op =>
      match exec op (mem s) with
      | Some m =>
          Some (emit (map (fun k => EvVal Worker k (Some op)) (val_accesses op) ++ [EvExec op])
                     (with_runnable AtLoop (with_mem m s)))
      | None => Some (with_runnable Faulted s)
      end
  | Exited | Faulted => None
  end.

(** What the scheduler chooses at each instant. *)
Inductive action :=
| Invoke (t : nat) (c : call)
| Resume (t : nat)
| Assign (t : nat) (x : loc) (v : Z)
| Work.

Definition step (a : action) (s : State) : option State :=
  match a with
  | Invoke t c => invoke t c s
  | Resume t => resume t s
  | Assign t x v => assign t x v s
  | Work => run_step s
  end.

Fixpoint run (acts : list action) (s : State) : option State :=
  match acts with
  | [] => Some s
  | a :: acts => step a s ≫= run acts
  end.

Inductive reachable : State -> Prop :=
| reachable_init : reachable init
| reachable_step s a s' : reachable s -> step a s = Some s' -> reachable s'.

(** The operations enqueued and the operations executed so far, in order. *)
Definition put_of (e : event) : option Operation :=
  match e with EvPut _ op => Some op | _ => None end.
Definition exec_of (e : event) : option Operation :=
  match e with EvExec op => Some op | _ => None end.
Definition pushed (s : State) : list Operation := omap put_of (trace s).
Definition executed (s : State) : list Operation := omap exec_of (trace s).

(** The operations taken or waiting to be taken, oldest first. *)
Definition in_flight (s : State) : list Operation :=
  match runnable s with Running op => [op] | _ => [] end.
Definition pending (s : State) : list Operation := in_flight s ++ dispatchQueue s.

(** The example of [main], with [t1] as caller 1 and the locals [a], [b] as
    locations 0 and 1, under one of its schedules. *)
Definition main_body : list action :=
  [ Invoke 0 CallDoSomething; Work; Work; Work; Resume 0;
    Invoke 1 CallDoSomethingElse;
    Invoke 0 (CallDoSomethingWithParams 5 7);
    Assign 0 0%nat 1; Assign 0 1%nat 2;
    Invoke 0 (CallDoSomethingWithReferenceParams 0%nat 1%nat);
    Work; Work; Work; Work; Work; Work; Work; Work; Work; Resume 0;
    Invoke 0 CallGetVal ].
Definition main_schedule : list action :=
  main_body ++ [ Invoke 0 CallDestructor; Work; Work; Work; Work; Resume 0 ].

(** The bodies of several operations, one after the other. *)
Fixpoint exec_all (ops : list Operation) (m : Memory) : option Memory :=
  match ops with
  | [] => Some m
  | op :: ops => exec op m ≫= exec_all ops
  end.

(** [op] is pending, the worker was not told to stop, and no sentinel is
    ahead of [op] in the queue. *)
Definition ahead (s : State) (op : Operation) : Prop :=
  done (mem s) = false /\
  exists ops rest, pending s = ops ++ op :: rest /\ SetDone ∉ ops.

(** The variables an operation assigns, and the variables an action of a
    caller names, by assigning them or by passing them by reference. *)
Definition writes (op : Operation) (x : loc) : Prop :=
  match op with
  | MutateRefs a b _ => x = a \/ x = b
  | _ => False
  end.

Definition touches (act : action) (x : loc) : Prop :=
  match act with
  | Assign _ y _ => x = y
  | Invoke _ (CallDoSomethingWithReferenceParams a b) => x = a \/ x = b
  | _ => False
  end.

(** The call [doSomethingWithReferenceParams(a, b)] in progress: its
    operation is pending and nothing queued behind it assigns [a] or [b], or
    it was executed, [a] and [b] hold what it assigned and nothing pending
    assigns them. *)
Definition in_progress (a b : loc) (p : promise) (s : State) : Prop :=
  (exists ops rest, pending s = ops ++ MutateRefs a b p :: rest /\
     Forall (fun o => ~ writes o a /\ ~ writes o b) rest) \/
  (promises (mem s) !! p = Some PVoid /\
   load b (mem s) = 5678 /\ (a <> b -> load a (mem s) = 1234) /\
   Forall (fun o => ~ writes o a /\ ~ writes o b) (pending s)).

(** Assignments made by caller [t] between two calls. *)
Definition assigns (t : nat) (xs : list (loc * Z)) : list action :=
  map (fun xv => Assign t (fst xv) (snd xv)) xs.

(** What the operation of [doSomethingWithParams] sends to [std::cout]. *)
Definition params_output (a b : Z) : list out_item :=
  [OutStr "this is the internal implementation of doSomethingWithParams(";
   OutInt a; OutStr ","; OutInt b; OutStr (")" ++ newline)].

(** ** Invariants of the reachable states *)

Definition op_promise (op : Operation) : option promise :=
  match op with
  | Return999 p | MutateRefs _ _ p => Some p
  | _ => None
  end.

Definition op_value (op : Operation) : pvalue :=
  match op with
  | Return999 _ => PInt 999
  | _ => PVoid
  end.

Definition pending_promises (s : State) : list promise :=
  omap op_promise (pending s).

(** Every operation put was executed, is being executed or is still queued,
    in the order of the puts. *)
Definition fifo_ok (s : State) : Prop :=
  pushed s = executed s ++ pending s.

(** [done] is set by the sentinel and by nothing else, and the worker leaves
    its loop only once it is set. *)
Definition done_ok (s : State) : Prop :=
  if done (mem s)
  then (exists pre, executed s = pre ++ [SetDone] /\ SetDone ∉ pre) /\
       (runnable s = AtLoop \/ runnable s = Exited)
  else (SetDone ∉ executed s) /\ runnable s <> Exited.

(** The promises of the operations not yet executed are distinct, allocated
    and not set. *)
Record promises_ok (s : State) : Prop := {
  pending_unset p : p ∈ pending_promises s -> promises (mem s) !! p = None;
  pending_NoDup : NoDup (pending_promises s);
  pending_allocated p : p ∈ pending_promises s -> (p < next_promise s)%nat;
  set_allocated p v : promises (mem s) !! p = Some v -> (p < next_promise s)%nat;
  set_int_999 p v : promises (mem s) !! p = Some (PInt v) -> v = 999
}.

(** A blocked caller waits for something that is on its way. *)
Definition caller_ok (s : State) (c : cstate) : Prop :=
  match c with
  | Ready => True
  | InDoSomething p =>
      Return999 p ∈ pending s \/ promises (mem s) !! p = Some (PInt 999)
  | InDoSomethingWithReferenceParams a b p =>
      MutateRefs a b p ∈ pending s \/ promises (mem s) !! p = Some PVoid
  | InDestructor => SetDone ∈ pushed s
  end.

Definition val_ok (s : State) : Prop :=
  val (mem s) = if bool_decide (SetVal ∈ executed s) then 2%float else 0%float.

(** What the recorded events may be. *)
Definition event_ok (s : State) (e : event) : Prop :=
  match e with
  | EvVal Worker k during => k = Write /\ during = Some SetVal /\ SetVal ∈ executed s
  | EvVal (Caller t) k during => k = Read /\ during = None
  | EvReturn t CallDoSomething r => r = RetInt 999
  | _ => True
  end.

Record Inv (s : State) : Prop := {
  inv_fifo : fifo_ok s;
  inv_done : done_ok s;
  inv_promises : promises_ok s;
  inv_callers t : caller_ok s (caller_state t s);
  inv_val : val_ok s;
  inv_events e : e ∈ trace s -> event_ok s e;
  inv_not_faulted : runnable s <> Faulted
}.

Definition main_final : State := default init (run main_schedule init).
Definition main_before_shutdown : State := default init (run main_body init).

(** Three operations put by three callers before the worker has moved. *)
Definition queued_three : State :=
  default init (run [Invoke 1 CallDoSomethingElse;
                     Invoke 2 (CallDoSomethingWithParams 5 7);
                     Invoke 0 CallDoSomething] init).

(** Calls made after the destructor has returned. *)
Definition after_shutdown : list action :=
  [ Invoke 1 CallDoSomethingElse; Invoke 2 (CallDoSomethingWithParams 1 2);
    Invoke 1 CallDoSomething ].
Definition after_shutdown_final : State :=
  default init (run after_shutdown main_final).

(** ** Further notions, for the properties beyond the claims *)

(** The call whose operation is [op] works as a barrier for the operations
    [before], put before it: [op] is pending with what is left of [before]
    ahead of it, or [before] and then [op] were executed. *)
Definition flushing (before : list Operation) (op : Operation) (s : State) : Prop :=
  (exists ops rest, pending s = ops ++ op :: rest /\ executed s ++ ops = before) \/
  (exists more, executed s = before ++ op :: more).

(** [op] is pending behind the sentinel: the worker was told to stop, or
    will be before it reaches [op]. *)
Definition behind (op : Operation) (s : State) : Prop :=
  exists ops rest, pending s = ops ++ op :: rest /\
                   (done (mem s) = true \/ SetDone ∈ ops).

(** The blocked state a caller is in, with the operation it waits for. *)
Definition waits_for (c : cstate) (op : Operation) (p : promise) : Prop :=
  (c = InDoSomething p /\ op = Return999 p) \/
  (exists a b, c = InDoSomethingWithReferenceParams a b p /\ op = MutateRefs a b p).

(** Two operations put by two callers before the worker has moved, and a
    blocking call of caller 0 served behind them. *)
Definition queued_two : State :=
  default init (run [Invoke 1 CallDoSomethingElse;
                     Invoke 2 (CallDoSomethingWithParams 5 7)] init).
Definition served_behind_two (c : call) : State :=
  default init (run (Invoke 0 c :: replicate 9 Work) queued_two).

Global Instance call_eq_dec : EqDecision call.
Proof. solve_decision. Defined.
Global Instance action_eq_dec : EqDecision action.
Proof. solve_decision. Defined.

(** How many times an action occurs in a list of actions. *)
Definition times (a : action) (acts : list action) : nat :=
  length (filter (fun x => x = a) acts).

(** ** [main] *)

(** The actions of the main thread, caller 0, in the order of the program,
    cut where it creates the thread [t1] and where it joins it; [a] and [b]
    are the locations 0 and 1.  The assertions of [main] are about what
    these actions return and about the memory. *)
Definition main_before_t1 : list action :=
  [ Invoke 0 CallDoSomething; Resume 0 ].
Definition main_beside_t1 : list action :=
  [ Invoke 0 (CallDoSomethingWithParams 5 7);
    Assign 0 0%nat 1; Assign 0 1%nat 2;
    Invoke 0 (CallDoSomethingWithReferenceParams 0%nat 1%nat); Resume 0 ].
Definition main_after_t1 : list action :=
  [ Invoke 0 CallGetVal; Invoke 0 CallDestructor; Resume 0 ].

(** The thread [t1], caller 1, runs [doSomethingElse]. *)
Definition t1_body : action := Invoke 1 CallDoSomethingElse.

(** The actions of the two threads, [t1] acting after [slot] of the actions
    the main thread performs between the creation of [t1] and its join. *)
Definition main_actions (slot : nat) : list action :=
  main_before_t1 ++ take slot main_beside_t1 ++ t1_body :: drop slot main_beside_t1
  ++ main_after_t1.

(** The worker performs [k i] of its actions before the [i]-th action of
    the callers. *)
Fixpoint with_works (k : nat -> nat) (i : nat) (acts : list action) : list action :=
  match acts with
  | [] => []
  | a :: acts => replicate (k i) Work ++ a :: with_works k (S i) acts
  end.

(** An execution of [main]: a choice of the instant [t1] acts and of the
    pace of the worker. *)
Definition main_execution (slot : nat) (k : nat -> nat) : list action :=
  with_works k 0 (main_actions slot).

(** What caller 0 can tell of the state: where it is, the next promise, and
    the operations put. *)
Definition view : Type := cstate * promise * list Operation.
Definition view_of (s : State) : view := (caller_state 0 s, next_promise s, pushed s).
Definition view_step (a : action) (v : view) : view :=
  let '(c, n, P) := v in
  match a with
  | Work | Assign _ _ _ | Invoke _ CallGetVal => v
  | Resume t => (if decide (t = 0%nat) then Ready else c, n, P)
  | Invoke t CallDoSomething =>
      (if decide (t = 0%nat) then InDoSomething n else c, S n, P ++ [Return999 n])
  | Invoke t CallDoSomethingElse => (c, n, P ++ [SetVal])
  | Invoke t (CallDoSomethingWithParams a b) => (c, n, P ++ [PrintParams a b])
  | Invoke t (CallDoSomethingWithReferenceParams a b) =>
      (if decide (t = 0%nat) then InDoSomethingWithReferenceParams a b n else c,
       S n, P ++ [MutateRefs a b n])
  | Invoke t CallDestructor =>
      (if decide (t = 0%nat) then InDestructor else c, n, P ++ [SetDone])
  end.

(** The pace of the worker that lets [getVal] run before the operation of
    [t1], when [t1] acts after [slot] actions of the main thread. *)
Definition late_pace (slot : nat) (i : nat) : nat :=
  match i with
  | 1 => 3
  | 6 => if decide (5 <= slot)%nat then 6 else 0
  | 7 => if decide (5 <= slot)%nat then 0 else 6
  | 10 => 7
  | _ => 0
  end%nat.

(** * Properties *)

Example take_after_puts :
  DispatchQueue.takes 2 (DispatchQueue.puts [SetVal; SetDone] []) = ([SetVal; SetDone], []).
Proof. reflexivity. Qed.

Example exec_SetVal_val :
  (val <$> exec SetVal (mkMemory 0%float false ∅ ∅ [])) = Some 2%float.
Proof. reflexivity. Qed.

(** ** The dispatch queue alone *)

Section Queue.
Import DispatchQueue.

Lemma take_nil : take [] = Blocked.
Proof. reflexivity. Qed.

Lemma take_cons op q : take (op :: q) = Taken op q.
Proof. reflexivity. Qed.

Lemma take_Blocked q : take q = Blocked <-> q = [].
Proof. destruct q; cbn; split; intros; simplify_eq; done. Qed.

Lemma take_Taken q op q' : take q = Taken op q' <-> q = op :: q'.
Proof. destruct q; cbn; split; intros; simplify_eq; done. Qed.

Lemma take_defined q : take q <> Undefined.
Proof. by destruct q. Qed.

Lemma puts_app ops q : puts ops q = q ++ ops.
Proof.
  revert q. induction ops as [|op ops IH]; intros q; simpl.
  - by rewrite app_nil_r.
  - rewrite IH. unfold put, push. by rewrite <- app_assoc.
Qed.

Lemma takes_all q : takes (length q) q = (q, []).
Proof.
  induction q as [|op q IH]; simpl; [done|]. by rewrite IH.
Qed.

End Queue.

(** ** How each action changes what is observed of the state *)

Lemma pushed_emit evs s : pushed (emit evs s) = pushed s ++ omap put_of evs.
Proof. apply omap_app. Qed.

Lemma executed_emit evs s : executed (emit evs s) = executed s ++ omap exec_of evs.
Proof. apply omap_app. Qed.

Lemma omap_val_events (f : event -> option Operation) op ks :
  (forall t k d, f (EvVal t k d) = None) ->
  omap f (map (fun k => EvVal Worker k (Some op)) ks) = [].
Proof. intros Hf. induction ks as [|k ks IH]; simpl; [done|]. by rewrite Hf. Qed.

(** Case analysis on a step; what is known of the state before must be in
    the goal. *)
Ltac step_cases H :=
  unfold step, invoke, resume, assign, run_step in H;
  repeat case_match; simplify_eq;
  repeat match goal with
    | E : DispatchQueue.take _ = DispatchQueue.Taken _ _ |- _ =>
        apply take_Taken in E
    | E : DispatchQueue.take _ = DispatchQueue.Blocked |- _ =>
        apply take_Blocked in E
    | E : DispatchQueue.take _ = DispatchQueue.Undefined |- _ =>
        by apply take_defined in E
    end.

Ltac obs :=
  unfold pushed, executed, pending_promises, pending, in_flight,
    doSomething, doSomethingElse, doSomethingWithParams,
    doSomethingWithReferenceParams, getVal, destructor, put,
    DispatchQueue.put, DispatchQueue.push in *;
  simpl in *;
  repeat match goal with
    | E : runnable _ = _ |- _ => rewrite E in *
    | E : dispatchQueue _ = _ |- _ => rewrite E in *
    | E : done _ = _ |- _ => rewrite E in *
    end;
  rewrite ?omap_app, ?omap_val_events in * by done;
  simpl in *;
  rewrite ?app_nil_r in *.

(** ** What the body of an operation does to the memory *)

Lemma exec_is_Some op m :
  (forall p, op_promise op = Some p -> promises m !! p = None) ->
  is_Some (exec op m).
Proof.
  intros Hp. destruct op; simpl; eauto; unfold set_value; simpl.
  all: by rewrite Hp.
Qed.

Lemma exec_unset op m m' p :
  exec op m = Some m' -> op_promise op = Some p -> promises m !! p = None.
Proof.
  destruct op; simpl; intros Hex Hp; simplify_eq.
  all: unfold set_value in Hex; simpl in Hex; by case_match.
Qed.

Lemma exec_promises op m m' :
  exec op m = Some m' ->
  promises m' = match op_promise op with
                | Some p => <[p := op_value op]> (promises m)
                | None => promises m
                end.
Proof.
  destruct op; simpl; intros Hex; simplify_eq; try done.
  all: unfold set_value in Hex; simpl in Hex; case_match; by simplify_eq.
Qed.

Lemma exec_done op m m' :
  exec op m = Some m' -> done m' = if decide (op = SetDone) then true else done m.
Proof.
  destruct op; simpl; intros Hex; simplify_eq; try done.
  all: unfold set_value in Hex; simpl in Hex; case_match; by simplify_eq.
Qed.

Lemma exec_val op m m' :
  exec op m = Some m' -> val m' = if decide (op = SetVal) then 2%float else val m.
Proof.
  destruct op; simpl; intros Hex; simplify_eq; try done.
  all: unfold set_value in Hex; simpl in Hex; case_match; by simplify_eq.
Qed.

(** ** Preservation of the invariants *)

Lemma exec_running s op :
  promises_ok s -> runnable s = Running op -> is_Some (exec op (mem s)).
Proof.
  intros Hp Hrun. apply exec_is_Some. intros p Hop.
  apply (pending_unset s Hp). unfold pending_promises, pending, in_flight.
  rewrite Hrun; simpl. rewrite Hop. left.
Qed.

Ltac no_fault :=
  try match goal with
    | Hp : promises_ok ?s, Hr : runnable ?s = Running ?op,
      E : exec ?op (mem ?s) = None |- _ =>
        destruct (exec_running s op Hp Hr); congruence
    end.

Lemma fifo_ok_init : fifo_ok init.
Proof. reflexivity. Qed.

Lemma fifo_ok_step a s s' :
  promises_ok s -> fifo_ok s -> step a s = Some s' -> fifo_ok s'.
Proof.
  unfold fifo_ok. intros Hp Hs Hstep.
  step_cases Hstep; no_fault; obs.
  all: rewrite ?Hs; by rewrite <- ?app_assoc.
Qed.

Lemma promises_ok_init : promises_ok init.
Proof.
  split; unfold pending_promises; simpl.
  - intros p Hp. by apply elem_of_nil in Hp.
  - constructor.
  - intros p Hp. by apply elem_of_nil in Hp.
  - intros p v Hl. by rewrite lookup_empty in Hl.
  - intros p v Hl. by rewrite lookup_empty in Hl.
Qed.

(** [promises_ok] only looks at the promises, the pending operations and
    the allocation counter. *)
Lemma promises_ok_same s s' :
  promises_ok s ->
  promises (mem s') = promises (mem s) ->
  next_promise s' = next_promise s ->
  pending s' = pending s ->
  promises_ok s'.
Proof.
  intros [Hun Hnd Hal Hset Hint] Hm Hn Hpe.
  split; unfold pending_promises; rewrite ?Hm, ?Hn, ?Hpe; done.
Qed.

Lemma promises_ok_put_plain s s' op :
  promises_ok s ->
  op_promise op = None ->
  promises (mem s') = promises (mem s) ->
  next_promise s' = next_promise s ->
  pending s' = pending s ++ [op] ->
  promises_ok s'.
Proof.
  intros [Hun Hnd Hal Hset Hint] Hop Hm Hn Hpe.
  split; unfold pending_promises; rewrite ?Hm, ?Hn, ?Hpe, ?omap_app; simpl;
    rewrite ?Hop, ?app_nil_r; done.
Qed.

Lemma promises_ok_put_fresh s s' op :
  promises_ok s ->
  op_promise op = Some (next_promise s) ->
  promises (mem s') = promises (mem s) ->
  next_promise s' = S (next_promise s) ->
  pending s' = pending s ++ [op] ->
  promises_ok s'.
Proof.
  intros [Hun Hnd Hal Hset Hint] Hop Hm Hn Hpe.
  assert (Hfresh : promises (mem s) !! next_promise s = None).
  { destruct (promises (mem s) !! next_promise s) as [v|] eqn:E; [|done].
    apply Hset in E. lia. }
  split; unfold pending_promises; rewrite ?Hm, ?Hn, ?Hpe, ?omap_app; simpl;
    rewrite ?Hop; try done.
  - intros p [Hin | ->%list_elem_of_singleton]%elem_of_app; eauto.
  - apply NoDup_app. split_and!; [done| |apply NoDup_singleton].
    intros p Hin ->%list_elem_of_singleton. apply Hal in Hin. lia.
  - intros p [Hin | ->%list_elem_of_singleton]%elem_of_app; [|lia].
    apply Hal in Hin. lia.
  - intros p v Hl. apply Hset in Hl. lia.
Qed.

Lemma promises_ok_exec s s' op rest :
  promises_ok s ->
  pending s = op :: rest ->
  exec op (mem s) = Some (mem s') ->
  next_promise s' = next_promise s ->
  pending s' = rest ->
  promises_ok s'.
Proof.
  intros [Hun Hnd Hal Hset Hint] Hpe Hex Hn Hpe'.
  unfold pending_promises in *. rewrite Hpe in *. simpl in *.
  pose proof (exec_promises _ _ _ Hex) as Hm.
  assert (Hrest : forall p, p ∈ omap op_promise rest ->
            p ∈ match op_promise op with
                | Some p0 => p0 :: omap op_promise rest
                | None => omap op_promise rest
                end).
  { intros p Hin. destruct (op_promise op); [by right|done]. }
  split; unfold pending_promises; rewrite ?Hm, ?Hn, ?Hpe'.
  - intros p Hin. destruct (op_promise op) as [p0|] eqn:Hop; [|by apply Hun].
    apply NoDup_cons in Hnd as [Hni _].
    rewrite lookup_insert_ne by (intros ->; done). apply Hun. by right.
  - destruct (op_promise op); [by apply NoDup_cons in Hnd as [_ ?]|done].
  - intros p Hin. by apply Hal, Hrest.
  - intros p v. destruct (op_promise op) as [p0|] eqn:Hop; [|by apply Hset].
    rewrite lookup_insert_Some. intros [[<- _]|[_ Hl]]; [|by eapply Hset].
    apply Hal. by left.
  - intros p v. destruct (op_promise op) as [p0|] eqn:Hop; [|by apply Hint].
    rewrite lookup_insert_Some. intros [[<- Hv]|[_ Hl]]; [|by eapply Hint].
    destruct op; simpl in *; by simplify_eq.
Qed.

Lemma pending_app_assoc (w : list Operation) q op : w ++ q ++ [op] = (w ++ q) ++ [op].
Proof. by rewrite app_assoc. Qed.

Lemma promises_ok_step a s s' :
  promises_ok s -> step a s = Some s' -> promises_ok s'.
Proof.
  intros Hp Hstep.
  step_cases Hstep; no_fault.
  all: try (by eapply promises_ok_same; [done|..]; obs).
  all: lazymatch goal with
       | |- promises_ok (doSomething ?t ?s) =>
           apply (promises_ok_put_fresh s _ (Return999 (next_promise s)))
       | |- promises_ok (doSomethingWithReferenceParams ?t ?a ?b ?s) =>
           apply (promises_ok_put_fresh s _ (MutateRefs a b (next_promise s)))
       | |- promises_ok (doSomethingElse ?t ?s) =>
           apply (promises_ok_put_plain s _ SetVal)
       | |- promises_ok (doSomethingWithParams ?t ?a ?b ?s) =>
           apply (promises_ok_put_plain s _ (PrintParams a b))
       | |- promises_ok (destructor ?t ?s) =>
           apply (promises_ok_put_plain s _ SetDone)
       | H : runnable ?s = Running ?op |- _ =>
           apply (promises_ok_exec s _ op (dispatchQueue s))
       end.
  all: try done.
  all: obs; try done; try apply pending_app_assoc.
Qed.

Lemma done_ok_init : done_ok init.
Proof. split; [apply not_elem_of_nil|done]. Qed.

Lemma done_ok_same s s' :
  done_ok s ->
  done (mem s') = done (mem s) ->
  executed s' = executed s ->
  runnable s' = runnable s ->
  done_ok s'.
Proof. unfold done_ok. intros Hs -> -> ->. done. Qed.

Lemma done_ok_step a s s' :
  promises_ok s -> done_ok s -> step a s = Some s' -> done_ok s'.
Proof.
  intros Hp Hs Hstep.
  step_cases Hstep; no_fault.
  all: try (by eapply done_ok_same; [done|..]; obs).
  all: unfold done_ok in *; obs.
  - destruct Hs as [Hpre _]. split; [done|by right].
  - by destruct Hs as [Hni _].
  - destruct (done (mem s)); [by destruct Hs as [_ [?|?]]|].
    by destruct Hs as [Hni _].
  - match goal with E : exec _ _ = Some _ |- _ =>
      apply exec_done in E; rewrite E end.
    destruct (done (mem s)); [by destruct Hs as [_ [?|?]]|].
    destruct Hs as [Hni _]. case_decide as Hop; subst.
    + split; [|by left]. by exists (omap exec_of (trace s)).
    + split; [|done]. rewrite not_elem_of_app, not_elem_of_cons.
      split_and!; [done|congruence|apply not_elem_of_nil].
Qed.

(** *** What any step preserves *)

Lemma step_promises_mono a s s' p v :
  step a s = Some s' ->
  promises (mem s) !! p = Some v -> promises (mem s') !! p = Some v.
Proof.
  intros Hstep Hl. step_cases Hstep; obs; try done.
  match goal with E : exec _ _ = Some _ |- _ =>
    rewrite (exec_promises _ _ _ E);
    pose proof (fun p => exec_unset _ _ _ p E) as Hun end.
  destruct (op_promise op) as [p0|]; [|done].
  rewrite lookup_insert_ne; [done|]. intros <-. specialize (Hun p0 eq_refl). congruence.
Qed.


Lemma step_pushed_mono a s s' op :
  step a s = Some s' -> op ∈ pushed s -> op ∈ pushed s'.
Proof.
  intros Hstep Hin. step_cases Hstep; obs; try done.
  all: rewrite ?elem_of_app; auto.
Qed.

Lemma step_executed_mono a s s' op :
  step a s = Some s' -> op ∈ executed s -> op ∈ executed s'.
Proof.
  intros Hstep Hin. step_cases Hstep; obs; try done.
  all: rewrite ?elem_of_app; auto.
Qed.

(** An operation that leaves the pending ones has been executed, and its
    promise is set. *)
Lemma step_pending a s s' op p :
  promises_ok s -> step a s = Some s' ->
  op ∈ pending s -> op_promise op = Some p ->
  op ∈ pending s' \/ promises (mem s') !! p = Some (op_value op).
Proof.
  intros Hp Hstep Hin Hop. step_cases Hstep; no_fault; obs; auto.
  all: try (left; rewrite app_assoc, elem_of_app; by left).
  apply elem_of_cons in Hin as [->|Hin]; [right|by left].
  match goal with E : exec _ _ = Some _ |- _ => rewrite (exec_promises _ _ _ E) end.
  rewrite Hop. apply lookup_insert_eq.
Qed.

Lemma callers_ok_init t : caller_ok init (caller_state t init).
Proof. done. Qed.

Lemma caller_ok_step a s s' c :
  promises_ok s -> step a s = Some s' -> caller_ok s c -> caller_ok s' c.
Proof.
  intros Hp Hstep. destruct c as [|p|x y p|]; simpl; [done| | |].
  - intros [Hin|Hset].
    + by destruct (step_pending _ _ _ _ p Hp Hstep Hin); auto.
    + right. by eapply step_promises_mono.
  - intros [Hin|Hset].
    + by destruct (step_pending _ _ _ _ p Hp Hstep Hin); auto.
    + right. by eapply step_promises_mono.
  - by eapply step_pushed_mono.
Qed.

Lemma callers_ok_step a s s' :
  promises_ok s -> (forall t, caller_ok s (caller_state t s)) ->
  step a s = Some s' -> forall t, caller_ok s' (caller_state t s').
Proof.
  intros Hp Hc Hstep t'.
  assert (caller_state t' s' = caller_state t' s \/ caller_ok s' (caller_state t' s'))
    as [->|?]; [|by eapply caller_ok_step|done].
  clear Hc. step_cases Hstep; no_fault; auto.
  all: unfold caller_state; obs.
  all: destruct (decide (t = t')) as [->|Hne];
    [rewrite lookup_insert_eq; right; simpl|rewrite lookup_insert_ne by done; by left].
  all: obs; try done.
  all: rewrite ?elem_of_app, ?list_elem_of_singleton; auto.
Qed.

Lemma val_ok_init : val_ok init.
Proof. reflexivity. Qed.

Lemma val_ok_same s s' :
  val_ok s -> val (mem s') = val (mem s) -> executed s' = executed s -> val_ok s'.
Proof. unfold val_ok. by intros Hs -> ->. Qed.

Lemma val_ok_step a s s' :
  promises_ok s -> val_ok s -> step a s = Some s' -> val_ok s'.
Proof.
  intros Hp Hs Hstep. step_cases Hstep; no_fault.
  all: try (by eapply val_ok_same; [done|..]; obs).
  unfold val_ok in *; obs.
  match goal with E : exec _ _ = Some _ |- _ => rewrite (exec_val _ _ _ E) end.
  rewrite Hs. destruct (decide (op = SetVal)) as [->|Hne].
  - rewrite bool_decide_eq_true_2; [done|]. rewrite elem_of_app, list_elem_of_singleton. auto.
  - rewrite (bool_decide_ext (SetVal ∈ omap exec_of (trace s) ++ [op])
               (SetVal ∈ omap exec_of (trace s))); [done|].
    rewrite elem_of_app, list_elem_of_singleton. split; [|by left].
    by intros [?|?].
Qed.

Lemma event_ok_mono s s' e :
  (forall op, op ∈ executed s -> op ∈ executed s') -> event_ok s e -> event_ok s' e.
Proof.
  intros Hex. destruct e as [| |[|t] k d|]; simpl; try done.
  intros (? & ? & ?). auto.
Qed.

Lemma events_ok_step a s s' :
  promises_ok s -> (forall e, e ∈ trace s -> event_ok s e) ->
  step a s = Some s' -> forall e, e ∈ trace s' -> event_ok s' e.
Proof.
  intros Hp Hs Hstep e He.
  assert (e ∈ trace s \/ event_ok s' e) as [Hin|?]; [|  |done].
  2:{ eapply event_ok_mono; [|by apply Hs]. intros op. by eapply step_executed_mono. }
  clear Hs. step_cases Hstep; no_fault; obs; auto.
  all: try match goal with H : runnable _ = Running ?op |- _ => destruct op; simpl in He end.
  all: repeat (rewrite ?elem_of_app, ?elem_of_cons, ?elem_of_nil in He).
  all: destruct_or?; subst; auto; try done; right; simpl; try done.
  - f_equal. by eapply (set_int_999 s Hp).
  - split_and!; [done..|]. rewrite executed_emit; simpl.
    rewrite elem_of_app, list_elem_of_singleton. by right.
Qed.

Lemma Inv_init : Inv init.
Proof.
  split.
  - apply fifo_ok_init.
  - apply done_ok_init.
  - apply promises_ok_init.
  - apply callers_ok_init.
  - apply val_ok_init.
  - intros e He. by apply elem_of_nil in He.
  - done.
Qed.

Lemma Inv_step a s s' : Inv s -> step a s = Some s' -> Inv s'.
Proof.
  intros [Hf Hd Hp Hc Hv He Hnf] Hstep. split.
  - by eapply fifo_ok_step.
  - by eapply done_ok_step.
  - by eapply promises_ok_step.
  - by eapply callers_ok_step.
  - by eapply val_ok_step.
  - by eapply events_ok_step.
  - clear -Hp Hnf Hstep. step_cases Hstep; no_fault; obs; done.
Qed.

Lemma reachable_Inv s : reachable s -> Inv s.
Proof.
  induction 1 as [|s a s' _ IH Hstep]; [apply Inv_init|by eapply Inv_step].
Qed.

Lemma Inv_run acts s s' : Inv s -> run acts s = Some s' -> Inv s'.
Proof.
  revert s. induction acts as [|a acts IH]; simpl; intros s Hs Hrun; [by simplify_eq|].
  destruct (step a s) as [s1|] eqn:Hstep; simpl in Hrun; [|done].
  eapply IH; [|done]. by eapply Inv_step.
Qed.

Lemma reachable_run acts s s' : reachable s -> run acts s = Some s' -> reachable s'.
Proof.
  revert s. induction acts as [|a acts IH]; simpl; intros s Hs Hrun; [by simplify_eq|].
  destruct (step a s) as [s1|] eqn:Hstep; simpl in Hrun; [|done].
  eapply IH; [|done]. by eapply reachable_step.
Qed.

Lemma run_app acts1 acts2 s :
  run (acts1 ++ acts2) s = run acts1 s ≫= run acts2.
Proof.
  revert s. induction acts1 as [|a acts1 IH]; simpl; intros s; [done|].
  destruct (step a s); simpl; [apply IH|done].
Qed.

(** ** Progress of the worker *)

Lemma exec_pending s op :
  promises_ok s -> op ∈ pending s -> is_Some (exec op (mem s)).
Proof.
  intros Hp Hin. apply exec_is_Some. intros p Hop.
  apply (pending_unset s Hp). unfold pending_promises.
  apply list_elem_of_omap. eauto.
Qed.

Lemma exec_all_app ops1 ops2 m :
  exec_all (ops1 ++ ops2) m = exec_all ops1 m ≫= exec_all ops2.
Proof.
  revert m. induction ops1 as [|op ops1 IH]; simpl; intros m; [done|].
  destruct (exec op m); simpl; [apply IH|done].
Qed.

Lemma run_replicate_add k1 k2 s :
  run (replicate (k1 + k2) Work) s = run (replicate k1 Work) s ≫= run (replicate k2 Work).
Proof. by rewrite replicate_add, run_app. Qed.

(** The worker, left to itself, executes the oldest pending operation
    within three of its actions. *)
Lemma worker_executes_next s op rest :
  Inv s -> done (mem s) = false -> pending s = op :: rest ->
  exists k s',
    run (replicate k Work) s = Some s' /\
    (k <= 3)%nat /\
    runnable s' = AtLoop /\
    dispatchQueue s' = rest /\
    exec op (mem s) = Some (mem s') /\
    trace s' = trace s ++ map (fun k => EvVal Worker k (Some op)) (val_accesses op) ++ [EvExec op] /\
    callers s' = callers s /\
    next_promise s' = next_promise s.
Proof.
  intros HI Hd Hpe.
  destruct (exec_pending s op (inv_promises s HI)) as [m Hm].
  { rewrite Hpe. by left. }
  pose proof (inv_done s HI) as Hdo. unfold done_ok in Hdo. rewrite Hd in Hdo.
  pose proof (inv_not_faulted s HI) as Hnf.
  unfold pending, in_flight in Hpe.
  destruct (runnable s) as [| |op0| |] eqn:Hr; simpl in Hpe; try by destruct Hdo.
  - exists 3%nat. eexists. simpl. unfold run_step. rewrite Hr, Hd. simpl.
    unfold run_step. simpl. rewrite Hpe. simpl.
    unfold run_step. simpl. rewrite Hm. simpl. split; [done|]. simpl.
    split_and!; done || lia.
  - exists 2%nat. eexists. simpl. unfold run_step. rewrite Hr, Hpe. simpl.
    unfold run_step. simpl. rewrite Hm. simpl. split; [done|]. simpl.
    split_and!; done || lia.
  - simplify_eq. exists 1%nat. eexists. simpl. unfold run_step. rewrite Hr, Hm. simpl.
    split; [done|]. simpl. split_and!; done || lia.
Qed.

Lemma executed_trace s s' evs :
  trace s' = trace s ++ evs -> executed s' = executed s ++ omap exec_of evs.
Proof. unfold executed. intros ->. apply omap_app. Qed.

Lemma pushed_trace s s' evs :
  trace s' = trace s ++ evs -> pushed s' = pushed s ++ omap put_of evs.
Proof. unfold pushed. intros ->. apply omap_app. Qed.

(** Left to itself, the worker executes any sentinel-free prefix of the
    pending operations, in their order. *)
Lemma worker_drains ops : forall s rest,
  Inv s -> done (mem s) = false -> pending s = ops ++ rest -> SetDone ∉ ops ->
  exists k s',
    run (replicate k Work) s = Some s' /\
    pending s' = rest /\
    exec_all ops (mem s) = Some (mem s') /\
    executed s' = executed s ++ ops /\
    pushed s' = pushed s /\
    callers s' = callers s /\
    next_promise s' = next_promise s /\
    done (mem s') = false.
Proof.
  induction ops as [|op ops IH]; intros s rest HI Hd Hpe Hns.
  - exists 0%nat, s. simpl. by rewrite app_nil_r.
  - apply not_elem_of_cons in Hns as [Hne Hns].
    destruct (worker_executes_next s op (ops ++ rest) HI Hd Hpe)
      as (k1 & s1 & Hrun1 & _ & Hr1 & Hq1 & Hm1 & Ht1 & Hc1 & Hn1).
    assert (HI1 : Inv s1) by by eapply Inv_run.
    assert (Hd1 : done (mem s1) = false).
    { rewrite (exec_done _ _ _ Hm1). by rewrite decide_False by done. }
    assert (Hpe1 : pending s1 = ops ++ rest).
    { unfold pending, in_flight. by rewrite Hr1, Hq1. }
    destruct (IH s1 rest HI1 Hd1 Hpe1 Hns)
      as (k2 & s2 & Hrun2 & Hpe2 & Hm2 & Hex2 & Hpu2 & Hc2 & Hn2 & Hd2).
    exists (k1 + k2)%nat, s2. rewrite run_replicate_add, Hrun1. simpl.
    rewrite Hm1. simpl. split_and!; try done; try congruence.
    + rewrite Hex2, (executed_trace _ _ _ Ht1), omap_app, omap_val_events by done.
      simpl. by rewrite <- app_assoc.
    + rewrite Hpu2, (pushed_trace _ _ _ Ht1), omap_app, omap_val_events by done.
      simpl. by rewrite !app_nil_r.
Qed.

(** ** The state reached by the example of [main] *)

Lemma main_final_run : run main_schedule init = Some main_final.
Proof. vm_compute. reflexivity. Qed.

Lemma main_final_reachable : reachable main_final.
Proof. eapply reachable_run; [apply reachable_init|apply main_final_run]. Qed.

Lemma main_before_shutdown_reachable : reachable main_before_shutdown.
Proof.
  apply (reachable_run main_body init); [apply reachable_init|].
  vm_compute. reflexivity.
Qed.

(** ** FIFO order *)

(** As long as no shutdown was requested, the worker is in its loop and no
    sentinel is pending. *)
Lemma no_sentinel_running s :
  Inv s -> SetDone ∉ pushed s -> done (mem s) = false /\ SetDone ∉ pending s.
Proof.
  intros HI Hns. rewrite (inv_fifo s HI), not_elem_of_app in Hns.
  destruct Hns as [Hne Hnp]. split; [|done].
  pose proof (inv_done s HI) as Hdo. unfold done_ok in Hdo.
  destruct (done (mem s)); [|done]. destruct Hdo as [(pre & Hex & _) _].
  rewrite Hex, not_elem_of_app, not_elem_of_cons in Hne. by destruct Hne as [_ [? _]].
Qed.

(** C1. The operations the worker has executed are, in every reachable
    state, the first of the operations put, in the order of the puts: what
    was put is what was executed, then what is being executed, then what is
    queued.  As long as no shutdown was requested, the worker left to itself
    goes on to execute all of them, in that order.  For the queue alone:
    [put] appends at the tail, [take] removes the head, and any puts
    followed by as many takes as the queue holds yield the queued operations
    in the order they were put. *)
Theorem fifo_order (s : State) (q : DispatchQueue.t) (ops : list Operation) (op : Operation) :
  reachable s ->
  pushed s = executed s ++ pending s /\
  (SetDone ∉ pushed s ->
   exists k s', run (replicate k Work) s = Some s' /\ executed s' = pushed s) /\
  DispatchQueue.put op q = q ++ [op] /\
  DispatchQueue.take (op :: q) = DispatchQueue.Taken op q /\
  DispatchQueue.takes (length q + length ops) (DispatchQueue.puts ops q) = (q ++ ops, []).
Proof.
  intros Hs. pose proof (reachable_Inv s Hs) as HI. split_and!.
  - apply (inv_fifo s HI).
  - intros Hns. destruct (no_sentinel_running s HI Hns) as [Hd Hnp].
    destruct (worker_drains (pending s) s [] HI Hd) as (k & s' & Hrun & _ & _ & Hex & _);
      [by rewrite app_nil_r|done|].
    exists k, s'. split; [done|]. by rewrite Hex, (inv_fifo s HI).
  - reflexivity.
  - reflexivity.
  - rewrite puts_app, <- length_app. apply takes_all.
Qed.

Lemma fifo_order_witness :
  pushed main_final = executed main_final ++ pending main_final /\
  (exists k s', run (replicate k Work) queued_three = Some s' /\
                executed s' = [SetVal; PrintParams 5 7; Return999 0%nat]) /\
  DispatchQueue.takes (length [SetVal] + length [PrintParams 5 7; SetDone])
    (DispatchQueue.puts [PrintParams 5 7; SetDone] [SetVal])
  = ([SetVal] ++ [PrintParams 5 7; SetDone], []).
Proof.
  split_and!.
  - apply (fifo_order main_final [] [] SetDone). apply main_final_reachable.
  - destruct (fifo_order queued_three [] [] SetDone) as (_ & Hlive & _).
    + apply (reachable_run
               [Invoke 1 CallDoSomethingElse; Invoke 2 (CallDoSomethingWithParams 5 7);
                Invoke 0 CallDoSomething] init); [apply reachable_init|].
      vm_compute. reflexivity.
    + apply Hlive. apply (bool_decide_unpack _). vm_compute. exact I.
  - apply (fifo_order init [SetVal] [PrintParams 5 7; SetDone] SetDone).
    apply reachable_init.
Defined.

(** ** [take] and [put] *)

(** C5. [take] goes on only when the queue is not empty: on the empty queue
    it stays blocked, however many times the worker is woken up; on a
    non-empty queue it returns the head and leaves the tail, and never
    reaches [front] or [pop] of an empty queue. *)
Theorem take_only_when_nonempty (q : DispatchQueue.t) :
  (q = [] ->
   DispatchQueue.take q = DispatchQueue.Blocked /\
   forall s n, runnable s = AtTake -> dispatchQueue s = q ->
               run (replicate n Work) s = Some s) /\
  (q <> [] ->
   exists op q', q = op :: q' /\ DispatchQueue.take q = DispatchQueue.Taken op q' /\
     forall s, runnable s = AtTake -> dispatchQueue s = q ->
               step Work s = Some (with_runnable (Running op) (with_queue q' s))) /\
  DispatchQueue.take q <> DispatchQueue.Undefined.
Proof.
  split_and!.
  - intros ->. split; [done|]. intros s n Hr Hq.
    induction n as [|n IH]; simpl; [done|].
    unfold run_step. rewrite Hr, Hq. simpl. exact IH.
  - intros Hne. destruct q as [|op q']; [done|]. exists op, q'.
    split_and!; [done..|]. intros s Hr Hq. simpl. unfold run_step. by rewrite Hr, Hq.
  - apply take_defined.
Qed.

Lemma take_only_when_nonempty_witness :
  (DispatchQueue.take [] = DispatchQueue.Blocked /\
   run (replicate 4 Work) (with_runnable AtTake init) = Some (with_runnable AtTake init)) /\
  (exists op q', [SetVal; SetDone] = op :: q' /\
     DispatchQueue.take [SetVal; SetDone] = DispatchQueue.Taken op q').
Proof.
  split.
  - destruct (take_only_when_nonempty []) as (Hnil & _ & _).
    destruct (Hnil eq_refl) as [Hb Hw]. split; [exact Hb|].
    apply Hw; reflexivity.
  - destruct (take_only_when_nonempty [SetVal; SetDone]) as (_ & Hcons & _).
    destruct (Hcons ltac:(discriminate)) as (op & q' & Hq & Ht & _). eauto.
Defined.

(** C6. [put] has no failure and no waiting: it is a total function, the
    queue after it is the queue before with the operation at the tail, the
    operations queued before keep their positions, and a caller outside any
    call can always invoke a public operation, whatever the queue holds. *)
Theorem put_never_fails (q : DispatchQueue.t) (op : Operation) (s : State) (t : nat) :
  DispatchQueue.put op q = q ++ [op] /\
  (forall i op', q !! i = Some op' -> DispatchQueue.put op q !! i = Some op') /\
  length (DispatchQueue.put op q) = S (length q) /\
  dispatchQueue (put t op s) = dispatchQueue s ++ [op] /\
  caller_state t (put t op s) = caller_state t s /\
  (forall c, caller_state t s = Ready -> is_Some (step (Invoke t c) s)).
Proof.
  split_and!; try done.
  - intros i op' Hi. unfold DispatchQueue.put, DispatchQueue.push.
    by apply lookup_app_l_Some.
  - unfold DispatchQueue.put, DispatchQueue.push. rewrite length_app. simpl. lia.
  - intros c Hr. simpl. unfold invoke. rewrite Hr. eauto.
Qed.

Lemma put_never_fails_witness :
  DispatchQueue.put (PrintParams 5 7) [SetVal; SetDone] !! 1%nat = Some SetDone /\
  is_Some (step (Invoke 0 CallDoSomethingElse) init).
Proof.
  destruct (put_never_fails [SetVal; SetDone] (PrintParams 5 7) init 0)
    as (_ & Hkeep & _ & _ & _ & Hcall).
  split.
  - apply Hkeep. reflexivity.
  - apply Hcall. reflexivity.
Defined.

(** ** [getVal] and the accesses to [val] *)

(** C10. [getVal] reads the field [val] in the calling thread and returns
    it at once: nothing is put in the queue, the memory is unchanged and the
    caller is not blocked.  The value returned is 0 as long as the operation
    of [doSomethingElse] has not been executed, and 2.0 once it has. *)
Theorem getVal_reads_val_directly (s : State) (t : nat) :
  reachable s -> caller_state t s = Ready ->
  exists s',
    step (Invoke t CallGetVal) s = Some s' /\
    trace s' = trace s ++ [EvVal (Caller t) Read None;
                           EvReturn t CallGetVal (RetDouble (val (mem s)))] /\
    dispatchQueue s' = dispatchQueue s /\ pushed s' = pushed s /\
    mem s' = mem s /\ caller_state t s' = Ready /\
    (SetVal ∉ executed s -> val (mem s) = 0%float) /\
    (SetVal ∈ executed s -> val (mem s) = 2%float).
Proof.
  intros Hs Hr. exists (getVal t s). simpl. unfold invoke. rewrite Hr.
  split_and!; try done.
  - unfold pushed, getVal. simpl. rewrite omap_app. simpl. by rewrite app_nil_r.
  - intros Hni. rewrite (inv_val s (reachable_Inv s Hs)).
    by rewrite bool_decide_eq_false_2.
  - intros Hin. rewrite (inv_val s (reachable_Inv s Hs)).
    by rewrite bool_decide_eq_true_2.
Qed.

Lemma getVal_reads_val_directly_witness :
  (exists s',
    step (Invoke 0 CallGetVal) init = Some s' /\
    trace s' = [EvVal (Caller 0) Read None; EvReturn 0 CallGetVal (RetDouble 0%float)]) /\
  (exists s',
    step (Invoke 0 CallGetVal) main_final = Some s' /\
    trace s' = trace main_final ++
               [EvVal (Caller 0) Read None; EvReturn 0 CallGetVal (RetDouble 2%float)]).
Proof.
  split.
  - destruct (getVal_reads_val_directly init 0 reachable_init eq_refl)
      as (s' & Hstep & Htr & _). eauto.
  - destruct (getVal_reads_val_directly main_final 0 main_final_reachable eq_refl)
      as (s' & Hstep & Htr & _). eauto.
Defined.

(** C7 as stated fails: [getVal] touches [val] in the thread of its caller,
    outside any operation of the queue. *)
Lemma getVal_touches_val_on_caller_thread :
  step (Invoke 0 CallGetVal) init = Some (getVal 0 init) /\
  EvVal (Caller 0) Read None ∈ trace (getVal 0 init) /\
  ~ (forall s th k d, reachable s -> EvVal th k d ∈ trace s -> th = Worker).
Proof.
  assert (Hin : EvVal (Caller 0) Read None ∈ trace (getVal 0 init)) by (simpl; left).
  split_and!; [reflexivity|exact Hin|]. intros Hclaim.
  assert (Hr : reachable (getVal 0 init)).
  { by apply (reachable_step init (Invoke 0 CallGetVal)), eq_refl; constructor. }
  by specialize (Hclaim (getVal 0 init) (Caller 0) Read None Hr Hin).
Qed.

(** C7, amended.  The field [val] is written by the worker only, inside the
    operation of [doSomethingElse] and once this operation, drawn from the
    queue, is executed; the only access from a calling thread is a read, the
    one of [getVal].  No action of a caller changes [val], and no action of
    a caller other than a call of [getVal] touches it. *)
Theorem val_written_by_worker_only (s : State) :
  reachable s ->
  (forall th k d, EvVal th k d ∈ trace s ->
     (th = Worker /\ k = Write /\ d = Some SetVal /\
      SetVal ∈ executed s /\ SetVal ∈ pushed s) \/
     (exists t, th = Caller t /\ k = Read /\ d = None)) /\
  (forall a s', step a s = Some s' -> a <> Work -> val (mem s') = val (mem s)) /\
  (forall a s', step a s = Some s' -> a <> Work ->
     (forall t, a <> Invoke t CallGetVal) ->
     forall th k d, EvVal th k d ∈ trace s' -> EvVal th k d ∈ trace s).
Proof.
  intros Hs. pose proof (reachable_Inv s Hs) as HI. split_and!.
  - intros th k d Hin. pose proof (inv_events s HI _ Hin) as He.
    destruct th as [|t]; simpl in He.
    + left. destruct He as (-> & -> & Hex). split_and!; try done.
      rewrite (inv_fifo s HI). apply elem_of_app. by left.
    + right. exists t. by destruct He.
  - intros a s' Hstep Ha. step_cases Hstep; done.
  - intros a s' Hstep Ha Hg th k d Hin. step_cases Hstep; obs; try done.
    all: try (by edestruct Hg).
    all: repeat (rewrite ?elem_of_app, ?elem_of_cons, ?elem_of_nil in Hin).
    all: by destruct_or?.
Qed.

Lemma val_written_by_worker_only_witness :
  (forall th k d, EvVal th k d ∈ trace main_final ->
     (th = Worker /\ k = Write /\ d = Some SetVal /\
      SetVal ∈ executed main_final /\ SetVal ∈ pushed main_final) \/
     (exists t, th = Caller t /\ k = Read /\ d = None)) /\
  val (mem (doSomethingElse 1 init)) = val (mem init).
Proof.
  destruct (val_written_by_worker_only main_final main_final_reachable)
    as (Hev & _ & _).
  destruct (val_written_by_worker_only init reachable_init) as (_ & Hval & _).
  split; [exact Hev|].
  apply (Hval (Invoke 1 CallDoSomethingElse)); [reflexivity|discriminate].
Defined.

(** ** Shutdown *)

(** Once [done] is set, no step executes or takes anything: the queue only
    grows by what is put. *)
Lemma step_after_done a s s' :
  Inv s -> done (mem s) = true -> step a s = Some s' ->
  done (mem s') = true /\ executed s' = executed s /\ in_flight s' = [] /\
  exists later, pushed s' = pushed s ++ later /\
                dispatchQueue s' = dispatchQueue s ++ later.
Proof.
  intros HI Hd Hstep.
  pose proof (inv_done s HI) as Hdo. unfold done_ok in Hdo. rewrite Hd in Hdo.
  destruct Hdo as [_ Hr].
  step_cases Hstep; obs; try (by destruct Hr).
  all: split_and!; try done; try (by destruct Hr as [->| ->]).
  all: try (by eexists; split; [reflexivity|]).
  all: by exists []; rewrite !app_nil_r.
Qed.

Lemma run_after_done acts : forall s s',
  Inv s -> done (mem s) = true -> run acts s = Some s' ->
  done (mem s') = true /\ executed s' = executed s /\
  exists later, pushed s' = pushed s ++ later /\
                dispatchQueue s' = dispatchQueue s ++ later.
Proof.
  induction acts as [|a acts IH]; simpl; intros s s' HI Hd Hrun.
  - simplify_eq. split_and!; try done. exists []. by rewrite !app_nil_r.
  - destruct (step a s) as [s1|] eqn:Hstep; simpl in Hrun; [|done].
    destruct (step_after_done a s s1 HI Hd Hstep) as (Hd1 & Hex1 & _ & l1 & Hpu1 & Hq1).
    destruct (IH s1 s' (Inv_step _ _ _ HI Hstep) Hd1 Hrun) as (Hd2 & Hex2 & l2 & Hpu2 & Hq2).
    split_and!; [done|congruence|]. exists (l1 ++ l2).
    rewrite Hpu2, Hq2, Hpu1, Hq1. by rewrite !app_assoc.
Qed.

(** C9. Once the sentinel has been executed, whatever happens next, the
    worker executes nothing more and takes nothing more: what it has
    executed stays what it was, and every operation put from then on is in
    the queue and stays there. *)
Theorem no_execution_after_sentinel (s s' : State) (acts : list action) :
  reachable s -> SetDone ∈ executed s -> run acts s = Some s' ->
  executed s' = executed s /\
  in_flight s' = [] /\
  exists later, pushed s' = pushed s ++ later /\
                dispatchQueue s' = dispatchQueue s ++ later.
Proof.
  intros Hs Hin Hrun. pose proof (reachable_Inv s Hs) as HI.
  assert (Hd : done (mem s) = true).
  { pose proof (inv_done s HI) as Hdo. unfold done_ok in Hdo.
    destruct (done (mem s)); [done|]. by destruct Hdo. }
  destruct (run_after_done acts s s' HI Hd Hrun) as (Hd' & Hex & later & Hpu & Hq).
  split_and!; [done| |by exists later].
  pose proof (inv_done s' (Inv_run _ _ _ HI Hrun)) as Hdo. unfold done_ok in Hdo.
  rewrite Hd' in Hdo. unfold in_flight. by destruct Hdo as [_ [->| ->]].
Qed.

Lemma no_execution_after_sentinel_witness :
  executed after_shutdown_final = executed main_final /\
  in_flight after_shutdown_final = [] /\
  exists later, pushed after_shutdown_final = pushed main_final ++ later /\
                dispatchQueue after_shutdown_final = dispatchQueue main_final ++ later.
Proof.
  apply (no_execution_after_sentinel main_final after_shutdown_final after_shutdown).
  - apply main_final_reachable.
  - apply (bool_decide_unpack _). vm_compute. exact I.
  - vm_compute. reflexivity.
Defined.

Lemma run_pushed acts : forall s s',
  run acts s = Some s' -> exists later, pushed s' = pushed s ++ later.
Proof.
  induction acts as [|a acts IH]; simpl; intros s s' Hrun.
  - simplify_eq. exists []. by rewrite app_nil_r.
  - destruct (step a s) as [s1|] eqn:Hstep; simpl in Hrun; [|done].
    destruct (IH s1 s' Hrun) as (l2 & ->).
    assert (exists l1, pushed s1 = pushed s ++ l1) as (l1 & ->).
    { clear -Hstep. step_cases Hstep; obs; eauto.
      all: by exists []; rewrite app_nil_r. }
    exists (l1 ++ l2). by rewrite app_assoc.
Qed.

(** If the sentinel was put, the worker left to itself reaches the end of
    [run], without any step of the callers. *)
Lemma worker_exits s :
  Inv s -> SetDone ∈ pushed s ->
  exists k s', run (replicate k Work) s = Some s' /\
               runnable s' = Exited /\ callers s' = callers s.
Proof.
  intros HI Hin.
  pose proof (inv_done s HI) as Hdo. unfold done_ok in Hdo.
  destruct (done (mem s)) eqn:Hd.
  - destruct Hdo as [_ [Hr|Hr]].
    + exists 1%nat, (with_runnable Exited s). simpl. unfold run_step. by rewrite Hr, Hd.
    + by exists 0%nat, s.
  - destruct Hdo as [Hni _].
    rewrite (inv_fifo s HI), elem_of_app in Hin. destruct Hin as [?|Hin]; [done|].
    apply list_elem_of_split_l in Hin as (ops & rest & Hpe & Hns).
    destruct (worker_drains ops s (SetDone :: rest) HI Hd Hpe Hns)
      as (k1 & s1 & Hrun1 & Hpe1 & _ & _ & _ & Hc1 & _ & Hd1).
    assert (HI1 : Inv s1) by by eapply Inv_run.
    destruct (worker_executes_next s1 SetDone rest HI1 Hd1 Hpe1)
      as (k2 & s2 & Hrun2 & _ & Hr2 & _ & Hm2 & _ & Hc2 & _).
    simpl in Hm2. injection Hm2 as Hm2.
    exists (k1 + (k2 + 1))%nat, (with_runnable Exited s2).
    rewrite run_replicate_add, Hrun1. simpl.
    rewrite run_replicate_add, Hrun2. simpl.
    unfold run_step. rewrite Hr2, <- Hm2. simpl. split_and!; [done..|congruence].
Qed.

(** C2. Let the destructor be called when no shutdown was requested before,
    and let anything happen next while it waits in [join].  If it returns,
    the worker has left [run], and it has executed exactly the operations
    put before the sentinel, in their order, then the sentinel; what was
    put after the sentinel is all that was not executed.  And it does
    return: from any such state, the actions of the worker alone bring
    [run] to its end and let [join] return.  The sentinel does nothing but
    set [done]. *)
Theorem destructor_drains_queue (s s1 : State) (t : nat) (acts : list action) :
  reachable s -> SetDone ∉ pushed s ->
  run (Invoke t CallDestructor :: acts) s = Some s1 ->
  caller_state t s1 = InDestructor ->
  (forall s2, step (Resume t) s1 = Some s2 ->
     runnable s2 = Exited /\
     executed s2 = pushed s ++ [SetDone] /\
     exists post, pushed s2 = pushed s ++ SetDone :: post /\ dispatchQueue s2 = post) /\
  (exists k s2, run (replicate k Work ++ [Resume t]) s1 = Some s2 /\
                caller_state t s2 = Ready) /\
  (forall m, exec SetDone m = Some (set_done true m)).
Proof.
  intros Hs Hns Hrun Ht.
  assert (HI1 : Inv s1) by (eapply Inv_run; [by apply reachable_Inv|done]).
  assert (Hpu : exists more, pushed s1 = pushed s ++ SetDone :: more).
  { simpl in Hrun. unfold invoke in Hrun.
    destruct (caller_state t s); simpl in Hrun; try done.
    apply run_pushed in Hrun as (later & ->). exists later.
    unfold pushed at 1; simpl. rewrite omap_app. simpl. by rewrite <- app_assoc. }
  destruct Hpu as (more & Hpu). split_and!; [| |done].
  - intros s2 Hstep. simpl in Hstep. unfold resume in Hstep. rewrite Ht in Hstep.
    destruct (runnable s1) eqn:Hr; simplify_eq. simpl.
    pose proof (inv_done s1 HI1) as Hdo. unfold done_ok in Hdo.
    destruct (done (mem s1)); [|by destruct Hdo].
    destruct Hdo as [(pre & Hex & Hpre) _].
    pose proof (inv_fifo s1 HI1) as Hf. unfold fifo_ok, pending, in_flight in Hf.
    rewrite Hr, Hex, Hpu in Hf. simpl in Hf. rewrite <- app_assoc in Hf. simpl in Hf.
    destruct (not_elem_of_app_cons_inv_l _ _ _ _ _ _ Hpre Hns Hf) as (<- & _ & ->).
    rewrite executed_emit, pushed_emit. simpl. rewrite !app_nil_r.
    split_and!; [done..|]. by exists (dispatchQueue s1).
  - destruct (worker_exits s1 HI1) as (k & s2 & Hrun2 & Hr2 & Hc2).
    { rewrite Hpu, elem_of_app, elem_of_cons. auto. }
    eexists k, _. rewrite run_app, Hrun2. simpl. unfold resume, caller_state.
    rewrite Hc2. fold (caller_state t s1). rewrite Ht, Hr2. split; [done|].
    unfold caller_state. simpl. by rewrite lookup_insert_eq.
Qed.

Lemma destructor_drains_queue_witness :
  executed main_final = pushed main_before_shutdown ++ [SetDone] /\
  exists k s2,
    run (replicate k Work ++ [Resume 0])
        (default init (run [Invoke 0 CallDestructor; Invoke 1 CallDoSomethingElse]
                           main_before_shutdown)) = Some s2 /\
    caller_state 0 s2 = Ready.
Proof.
  split.
  - destruct (destructor_drains_queue main_before_shutdown
                (default init (run [Invoke 0 CallDestructor; Work; Work; Work; Work]
                                   main_before_shutdown))
                0 [Work; Work; Work; Work]) as (Hsafe & _ & _).
    + apply main_before_shutdown_reachable.
    + apply (bool_decide_unpack _). vm_compute. exact I.
    + vm_compute. reflexivity.
    + vm_compute. reflexivity.
    + destruct (Hsafe main_final) as (_ & Hex & _); [vm_compute; reflexivity|exact Hex].
  - destruct (destructor_drains_queue main_before_shutdown
                (default init (run [Invoke 0 CallDestructor; Invoke 1 CallDoSomethingElse]
                                   main_before_shutdown))
                0 [Invoke 1 CallDoSomethingElse]) as (_ & Hlive & _).
    + apply main_before_shutdown_reachable.
    + apply (bool_decide_unpack _). vm_compute. exact I.
    + vm_compute. reflexivity.
    + vm_compute. reflexivity.
    + exact Hlive.
Defined.

(** ** Blocking calls *)

(** An operation with no sentinel ahead of it stays so until it is executed,
    whatever the other threads do. *)
Lemma ahead_step a s s' op p :
  Inv s -> op <> SetDone -> op_promise op = Some p ->
  ahead s op -> step a s = Some s' ->
  ahead s' op \/ promises (mem s') !! p = Some (op_value op).
Proof.
  intros HI Hne Hop (Hd & ops & rest & Hpe & Hns) Hstep.
  pose proof (inv_promises s HI) as Hp. unfold ahead.
  step_cases Hstep; no_fault; obs.
  all: try (left; split; [done|]; by eauto).
  all: try (left; split; [done|]; eexists ops, _; split; [|done];
            rewrite app_assoc, Hpe, <- app_assoc; reflexivity).
  match goal with E : exec _ _ = Some _ |- _ =>
    rewrite (exec_promises _ _ _ E), (exec_done _ _ _ E) end.
  destruct ops as [|o ops']; simpl in Hpe; simplify_eq.
  - right. rewrite Hop. apply lookup_insert_eq.
  - left. apply not_elem_of_cons in Hns as [Hno Hns].
    rewrite decide_False by done. split; [done|]. by exists ops', rest.
Qed.

Lemma ahead_run acts : forall s s' op p,
  Inv s -> op <> SetDone -> op_promise op = Some p ->
  ahead s op -> run acts s = Some s' ->
  ahead s' op \/ promises (mem s') !! p = Some (op_value op).
Proof.
  induction acts as [|a acts IH]; simpl; intros s s' op p HI Hne Hop Ha Hrun.
  - simplify_eq. by left.
  - destruct (step a s) as [s1|] eqn:Hstep; simpl in Hrun; [|done].
    pose proof (Inv_step _ _ _ HI Hstep) as HI1.
    destruct (ahead_step a s s1 op p HI Hne Hop Ha Hstep) as [Ha1|Hset].
    + by eapply IH.
    + right. clear -Hset Hrun. revert s1 Hset Hrun.
      induction acts as [|a' acts IH']; simpl; intros s1 Hset Hrun; [by simplify_eq|].
      destruct (step a' s1) as [s2|] eqn:Hstep; simpl in Hrun; [|done].
      eapply IH'; [|done]. by eapply step_promises_mono.
Qed.

(** An operation with no sentinel ahead of it gets executed by the worker
    left to itself. *)
Lemma ahead_served s op p :
  Inv s -> op_promise op = Some p -> ahead s op ->
  exists k s', run (replicate k Work) s = Some s' /\
               promises (mem s') !! p = Some (op_value op) /\
               callers s' = callers s.
Proof.
  intros HI Hop (Hd & ops & rest & Hpe & Hns).
  destruct (worker_drains ops s (op :: rest) HI Hd Hpe Hns)
    as (k1 & s1 & Hrun1 & Hpe1 & _ & _ & _ & Hc1 & _ & Hd1).
  assert (HI1 : Inv s1) by by eapply Inv_run.
  destruct (worker_executes_next s1 op rest HI1 Hd1 Hpe1)
    as (k2 & s2 & Hrun2 & _ & _ & _ & Hm2 & _ & Hc2 & _).
  exists (k1 + k2)%nat, s2. rewrite run_replicate_add, Hrun1. simpl.
  split_and!; [done| |congruence].
  rewrite (exec_promises _ _ _ Hm2), Hop. apply lookup_insert_eq.
Qed.

(** Right after a put made when no shutdown was requested, the operation
    put has no sentinel ahead of it. *)
Lemma ahead_put s s0 op :
  Inv s -> SetDone ∉ pushed s ->
  done (mem s0) = done (mem s) -> pending s0 = pending s ++ [op] ->
  ahead s0 op.
Proof.
  intros HI Hns Hd Hpe. destruct (no_sentinel_running s HI Hns) as [Hd' Hnp].
  split; [congruence|]. by exists (pending s), [].
Qed.

Lemma run_cons_inv a acts s s' :
  run (a :: acts) s = Some s' ->
  exists s0, step a s = Some s0 /\ run acts s0 = Some s'.
Proof.
  simpl. destruct (step a s) as [s0|]; simpl; [eauto|done].
Qed.

(** C3. Let [doSomething] be called when no shutdown was requested, and let
    anything happen next.  Every value [doSomething] has returned to this
    caller is 999.  And while the call has not returned, the actions of the
    worker alone get its operation executed, after which the call returns,
    and returns 999. *)
Theorem doSomething_returns_999 (s s1 : State) (t : nat) (acts : list action) :
  reachable s -> SetDone ∉ pushed s ->
  run (Invoke t CallDoSomething :: acts) s = Some s1 ->
  (forall r, EvReturn t CallDoSomething r ∈ trace s1 -> r = RetInt 999) /\
  (caller_state t s1 = InDoSomething (next_promise s) ->
   exists k s2,
     run (replicate k Work ++ [Resume t]) s1 = Some s2 /\
     last (trace s2) = Some (EvReturn t CallDoSomething (RetInt 999)) /\
     caller_state t s2 = Ready).
Proof.
  intros Hs Hns Hrun. pose proof (reachable_Inv s Hs) as HI.
  apply run_cons_inv in Hrun as (s0 & Hstep & Hrun).
  pose proof (Inv_step _ _ _ HI Hstep) as HI0.
  pose proof (Inv_run _ _ _ HI0 Hrun) as HI1.
  split.
  - intros r Hin. apply (inv_events s1 HI1 _ Hin).
  - intros Ht. set (p := next_promise s) in *.
    assert (Ha0 : ahead s0 (Return999 p)).
    { simpl in Hstep. unfold invoke in Hstep. destruct (caller_state t s); simplify_eq.
      apply (ahead_put s); [done..|]. unfold pending, in_flight; simpl.
      unfold DispatchQueue.put, DispatchQueue.push. by rewrite app_assoc. }
    assert (exists k s', run (replicate k Work) s1 = Some s' /\
                         promises (mem s') !! p = Some (PInt 999) /\
                         callers s' = callers s1) as (k & s' & Hrun' & Hset & Hc).
    { destruct (ahead_run acts s0 s1 (Return999 p) p HI0) as [Ha1|Hset]; try done.
      - by apply (ahead_served s1 (Return999 p) p).
      - by exists 0%nat, s1. }
    eexists k, _. rewrite run_app, Hrun'. simpl. unfold resume, caller_state.
    rewrite Hc. fold (caller_state t s1). rewrite Ht, Hset. split; [done|].
    simpl. split; [apply last_snoc|]. unfold caller_state; simpl.
    by rewrite lookup_insert_eq.
Qed.

Lemma doSomething_returns_999_witness :
  (forall r, EvReturn 0 CallDoSomething r ∈ trace main_final -> r = RetInt 999) /\
  exists k s2,
    run (replicate k Work ++ [Resume 0])
        (default init (run [Invoke 0 CallDoSomething; Invoke 1 CallDoSomethingElse;
                            Work; Invoke 1 CallDestructor] init)) = Some s2 /\
    last (trace s2) = Some (EvReturn 0 CallDoSomething (RetInt 999)) /\
    caller_state 0 s2 = Ready.
Proof.
  split.
  - apply (doSomething_returns_999 init main_final 0 (tail main_schedule)).
    + apply reachable_init.
    + apply not_elem_of_nil.
    + vm_compute. reflexivity.
  - apply (doSomething_returns_999 init _ 0
             [Invoke 1 CallDoSomethingElse; Work; Invoke 1 CallDestructor]).
    + apply reachable_init.
    + apply not_elem_of_nil.
    + vm_compute. reflexivity.
    + vm_compute. reflexivity.
Defined.

(** ** Reference parameters *)

Lemma load_store x y v m :
  load x (store y v m) = if decide (x = y) then v else load x m.
Proof.
  unfold load, store; simpl. destruct (decide (x = y)) as [->|Hne].
  - by rewrite lookup_insert_eq.
  - by rewrite lookup_insert_ne.
Qed.

Lemma exec_MutateRefs a b p m m' :
  exec (MutateRefs a b p) m = Some m' ->
  load b m' = 5678 /\ (a <> b -> load a m' = 1234).
Proof.
  simpl. unfold set_value; simpl. case_match; intros Hex; simplify_eq.
  unfold load; simpl. rewrite lookup_insert_eq. split; [done|]. intros Hne.
  rewrite lookup_insert_ne by done. by rewrite lookup_insert_eq.
Qed.

Lemma exec_load op m m' x :
  exec op m = Some m' -> ~ writes op x -> load x m' = load x m.
Proof.
  destruct op; simpl; intros Hex Hw; simplify_eq; try done.
  all: unfold set_value in Hex; simpl in Hex; case_match; simplify_eq; try done.
  unfold load; simpl. rewrite !lookup_insert_ne; [done|..]; intros ->; auto.
Qed.

(** [in_progress] only looks at the memory and the pending operations. *)
Lemma in_progress_same a b p s s' :
  in_progress a b p s -> mem s' = mem s -> pending s' = pending s ->
  in_progress a b p s'.
Proof. unfold in_progress. by intros HK -> ->. Qed.

Lemma in_progress_put a b p s s' o :
  in_progress a b p s -> mem s' = mem s -> pending s' = pending s ++ [o] ->
  ~ writes o a -> ~ writes o b ->
  in_progress a b p s'.
Proof.
  unfold in_progress. intros [(ops & rest & Hpe & Hrest)|(Hset & Hb & Ha & Hall)] -> -> Hwa Hwb.
  - left. exists ops, (rest ++ [o]). split.
    + by rewrite Hpe, <- app_assoc.
    + apply Forall_app. split; [done|]. by apply Forall_singleton.
  - right. split_and!; try done. apply Forall_app. split; [done|].
    by apply Forall_singleton.
Qed.

Lemma in_progress_assign a b p s s' x v :
  in_progress a b p s -> mem s' = store x v (mem s) -> pending s' = pending s ->
  x <> a -> x <> b ->
  in_progress a b p s'.
Proof.
  unfold in_progress. intros [HK|(Hset & Hb & Ha & Hall)] -> -> Hxa Hxb; [by left|].
  right. rewrite !load_store, !decide_False by done. by split_and!.
Qed.

Lemma in_progress_exec a b p s s' op :
  in_progress a b p s -> pending s = op :: pending s' ->
  exec op (mem s) = Some (mem s') ->
  in_progress a b p s'.
Proof.
  unfold in_progress.
  intros [(ops & rest & Hpe & Hrest)|(Hset & Hb & Ha & Hall)] Hpe' Hex.
  - rewrite Hpe' in Hpe. destruct ops as [|o ops]; simpl in Hpe; simplify_eq.
    + right. destruct (exec_MutateRefs _ _ _ _ _ Hex) as [Hb Ha].
      split_and!; try done. rewrite (exec_promises _ _ _ Hex). apply lookup_insert_eq.
    + left. by exists ops, rest.
  - rewrite Hpe' in Hall. apply Forall_cons in Hall as [[Hwa Hwb] Hall]. right.
    rewrite !(exec_load _ _ _ _ Hex) by done. split_and!; try done.
    rewrite (exec_promises _ _ _ Hex). destruct (op_promise op) as [p0|] eqn:Hop; [|done].
    rewrite lookup_insert_ne; [done|]. intros ->.
    pose proof (exec_unset _ _ _ _ Hex Hop). congruence.
Qed.

Lemma in_progress_step act s s' a b p :
  Inv s -> ~ touches act a -> ~ touches act b ->
  in_progress a b p s -> step act s = Some s' -> in_progress a b p s'.
Proof.
  intros HI Hta Htb HK Hstep.
  pose proof (inv_promises s HI) as Hp.
  step_cases Hstep; no_fault.
  all: try (by eapply in_progress_same; [done|..]; obs).
  all: lazymatch goal with
       | |- in_progress _ _ _ (doSomething ?t ?s) =>
           apply (in_progress_put _ _ _ s _ (Return999 (next_promise s)))
       | |- in_progress _ _ _ (doSomethingWithReferenceParams ?t ?x ?y ?s) =>
           apply (in_progress_put _ _ _ s _ (MutateRefs x y (next_promise s)))
       | |- in_progress _ _ _ (doSomethingElse ?t ?s) =>
           apply (in_progress_put _ _ _ s _ SetVal)
       | |- in_progress _ _ _ (doSomethingWithParams ?t ?x ?y ?s) =>
           apply (in_progress_put _ _ _ s _ (PrintParams x y))
       | |- in_progress _ _ _ (destructor ?t ?s) =>
           apply (in_progress_put _ _ _ s _ SetDone)
       | |- in_progress _ _ _ (with_mem (store ?x ?v _) ?s) =>
           apply (in_progress_assign _ _ _ s _ x v)
       | H : runnable ?s = Running ?op |- _ =>
           apply (in_progress_exec _ _ _ s _ op)
       end.
  all: try done.
  all: obs; try done; try apply pending_app_assoc; auto.
Qed.

Lemma in_progress_run acts : forall s s' a b p,
  Inv s -> Forall (fun act => ~ touches act a /\ ~ touches act b) acts ->
  in_progress a b p s -> run acts s = Some s' -> in_progress a b p s'.
Proof.
  induction acts as [|act acts IH]; simpl; intros s s' a b p HI Hacts HK Hrun.
  - by simplify_eq.
  - destruct (step act s) as [s1|] eqn:Hstep; simpl in Hrun; [|done].
    apply Forall_cons in Hacts as [[Hta Htb] Hacts].
    eapply (IH s1); [by eapply Inv_step|done| |done].
    by eapply in_progress_step.
Qed.

Lemma in_progress_set a b p s :
  Inv s -> in_progress a b p s -> promises (mem s) !! p = Some PVoid ->
  load b (mem s) = 5678 /\ (a <> b -> load a (mem s) = 1234).
Proof.
  intros HI [(ops & rest & Hpe & _)|(_ & Hb & Ha & _)] Hset; [|done].
  assert (Hun : promises (mem s) !! p = None); [|congruence].
  apply (pending_unset s (inv_promises s HI)). unfold pending_promises.
  apply list_elem_of_omap. exists (MutateRefs a b p). split; [|done].
  rewrite Hpe, elem_of_app, elem_of_cons. auto.
Qed.

(** C4 as stated fails when both references name the same variable: the
    second assignment of the operation overwrites the first, and the caller
    reads 5678 in [a]. *)
Lemma aliased_references_counterexample :
  exists s',
    run [Invoke 0 (CallDoSomethingWithReferenceParams 0%nat 0%nat);
         Work; Work; Work; Resume 0] init = Some s' /\
    caller_state 0 s' = Ready /\
    load 0%nat (mem s') = 5678 /\
    load 0%nat (mem s') <> 1234.
Proof.
  eexists. split; [vm_compute; reflexivity|]. split_and!; done.
Qed.

(** C4, amended.  Let [doSomethingWithReferenceParams(a, b)] be called, and
    let anything happen while the call is blocked, other than a thread
    assigning [a] or [b] or passing them by reference.  When the call
    returns, [b] holds 5678, and [a] holds 1234 provided [a] and [b] are
    two distinct variables.  And if no shutdown was requested when the call
    was made, the actions of the worker alone let the call return. *)
Theorem reference_params_visible (s s1 : State) (t : nat) (a b : loc) (acts : list action) :
  reachable s ->
  Forall (fun act => ~ touches act a /\ ~ touches act b) acts ->
  run (Invoke t (CallDoSomethingWithReferenceParams a b) :: acts) s = Some s1 ->
  caller_state t s1 = InDoSomethingWithReferenceParams a b (next_promise s) ->
  (forall s2, step (Resume t) s1 = Some s2 ->
     caller_state t s2 = Ready /\
     load b (mem s2) = 5678 /\ (a <> b -> load a (mem s2) = 1234)) /\
  (SetDone ∉ pushed s ->
   exists k s2,
     run (replicate k Work ++ [Resume t]) s1 = Some s2 /\
     caller_state t s2 = Ready /\
     load b (mem s2) = 5678 /\ (a <> b -> load a (mem s2) = 1234)).
Proof.
  intros Hs Hacts Hrun Ht. pose proof (reachable_Inv s Hs) as HI.
  apply run_cons_inv in Hrun as (s0 & Hstep & Hrun).
  pose proof (Inv_step _ _ _ HI Hstep) as HI0.
  pose proof (Inv_run _ _ _ HI0 Hrun) as HI1.
  set (p := next_promise s) in *.
  assert (mem s0 = mem s /\ pending s0 = pending s ++ [MutateRefs a b p]) as [Hm0 Hpe0].
  { simpl in Hstep. unfold invoke in Hstep. destruct (caller_state t s); simplify_eq.
    split; [done|]. unfold pending, in_flight; simpl.
    unfold DispatchQueue.put, DispatchQueue.push. by rewrite app_assoc. }
  assert (HK1 : in_progress a b p s1).
  { eapply in_progress_run; [exact HI0|exact Hacts| |exact Hrun].
    left. exists (pending s), []. by split. }
  split.
  - intros s2 Hres. simpl in Hres. unfold resume in Hres. rewrite Ht in Hres.
    destruct (promises (mem s1) !! p) as [[v|]|] eqn:Hset; simplify_eq.
    split; [|by apply (in_progress_set a b p s1)].
    unfold caller_state; simpl. by rewrite lookup_insert_eq.
  - intros Hns.
    assert (Ha0 : ahead s0 (MutateRefs a b p)).
    { apply (ahead_put s); [done..| |done]. by rewrite Hm0. }
    assert (exists k s', run (replicate k Work) s1 = Some s' /\
                         promises (mem s') !! p = Some PVoid /\
                         callers s' = callers s1) as (k & s' & Hrun' & Hset & Hc).
    { destruct (ahead_run acts s0 s1 (MutateRefs a b p) p HI0) as [Ha1|Hset]; try done.
      - by apply (ahead_served s1 (MutateRefs a b p) p).
      - by exists 0%nat, s1. }
    assert (HK' : in_progress a b p s').
    { eapply in_progress_run; [exact HI1| |exact HK1|exact Hrun'].
      apply Forall_forall. intros act ->%elem_of_replicate_inv. split; by intros []. }
    eexists k, _. rewrite run_app, Hrun'. simpl. unfold resume, caller_state.
    rewrite Hc. fold (caller_state t s1). rewrite Ht, Hset. split; [done|].
    split; [unfold caller_state; simpl; by rewrite lookup_insert_eq|].
    apply (in_progress_set a b p s'); [by eapply Inv_run|done..].
Qed.

Lemma reference_params_visible_witness :
  exists k s2,
    run (replicate k Work ++ [Resume 0])
        (default init (run [Invoke 0 (CallDoSomethingWithReferenceParams 0%nat 1%nat);
                            Invoke 1 CallDoSomethingElse; Assign 1 2%nat 7] init)) = Some s2 /\
    caller_state 0 s2 = Ready /\
    load 1%nat (mem s2) = 5678 /\ load 0%nat (mem s2) = 1234.
Proof.
  destruct (reference_params_visible init
              (default init (run [Invoke 0 (CallDoSomethingWithReferenceParams 0%nat 1%nat);
                                  Invoke 1 CallDoSomethingElse; Assign 1 2%nat 7] init))
              0 0%nat 1%nat [Invoke 1 CallDoSomethingElse; Assign 1 2%nat 7])
    as [_ Hlive].
  - apply reachable_init.
  - repeat constructor; simpl; lia.
  - vm_compute. reflexivity.
  - vm_compute. reflexivity.
  - destruct (Hlive (not_elem_of_nil _)) as (k & s2 & Hrun & Hr & Hb & Ha).
    exists k, s2. split_and!; [done..|]. apply Ha. discriminate.
Defined.

(** ** Parameters captured by value *)

Lemma exec_PrintParams a b m :
  exists m', exec (PrintParams a b) m = Some m' /\ cout m' = cout m ++ params_output a b.
Proof. eexists. split; [reflexivity|]. simpl. by rewrite <- app_assoc. Qed.

Lemma run_assigns t xs : forall s,
  caller_state t s = Ready ->
  exists s', run (assigns t xs) s = Some s' /\
             pending s' = pending s /\ done (mem s') = done (mem s) /\
             cout (mem s') = cout (mem s) /\ promises (mem s') = promises (mem s) /\
             trace s' = trace s /\ caller_state t s' = Ready /\
             dispatchQueue s' = dispatchQueue s.
Proof.
  induction xs as [|[x v] xs IH]; simpl; intros s Hr; [by exists s|].
  unfold assign. rewrite Hr. simpl.
  destruct (IH (with_mem (store x v (mem s)) s)) as (s' & Hrun & Hrest); [done|].
  exists s'. split; [done|]. exact Hrest.
Qed.

(** C8. [doSomethingWithParams(a, b)], called with the values two variables
    of the caller hold at that instant, puts in the queue a closure holding
    these two values and returns at once: the caller goes on, and whatever
    it assigns next to its variables, the worker, once it has executed what
    was pending before, prints the values of the instant of the call. *)
Theorem params_captured_by_value (s : State) (t : nat) (x y : loc) (xs : list (loc * Z)) :
  reachable s -> caller_state t s = Ready -> SetDone ∉ pushed s ->
  exists s0 s1 k s2 m,
    step (Invoke t (CallDoSomethingWithParams (load x (mem s)) (load y (mem s)))) s = Some s0 /\
    caller_state t s0 = Ready /\
    dispatchQueue s0 = dispatchQueue s ++ [PrintParams (load x (mem s)) (load y (mem s))] /\
    run (assigns t xs) s0 = Some s1 /\
    run (replicate k Work) s1 = Some s2 /\
    executed s2 = executed s ++ pending s ++ [PrintParams (load x (mem s)) (load y (mem s))] /\
    exec_all (pending s) (mem s1) = Some m /\
    cout (mem s2) = cout m ++ params_output (load x (mem s)) (load y (mem s)) /\
    (forall m0, exists m1,
       exec (PrintParams (load x (mem s)) (load y (mem s))) m0 = Some m1 /\
       cout m1 = cout m0 ++ params_output (load x (mem s)) (load y (mem s))).
Proof.
  intros Hs Hr Hns. pose proof (reachable_Inv s Hs) as HI.
  set (a := load x (mem s)). set (b := load y (mem s)).
  set (s0 := doSomethingWithParams t a b s).
  assert (Hstep : step (Invoke t (CallDoSomethingWithParams a b)) s = Some s0).
  { simpl. unfold invoke. by rewrite Hr. }
  pose proof (Inv_step _ _ _ HI Hstep) as HI0.
  assert (Hr0 : caller_state t s0 = Ready) by exact Hr.
  destruct (run_assigns t xs s0 Hr0)
    as (s1 & Hrun1 & Hpe1 & Hd1 & _ & _ & Htr1 & _ & _).
  pose proof (Inv_run _ _ _ HI0 Hrun1) as HI1.
  assert (Hpe0 : pending s0 = pending s ++ [PrintParams a b]).
  { unfold pending, in_flight; simpl.
    unfold DispatchQueue.put, DispatchQueue.push. by rewrite app_assoc. }
  destruct (ahead_put s s0 (PrintParams a b) HI Hns eq_refl Hpe0) as [Hd0 _].
  destruct (worker_drains (pending s ++ [PrintParams a b]) s1 [] HI1)
    as (k & s2 & Hrun2 & _ & Hm2 & Hex2 & _).
  { congruence. }
  { by rewrite app_nil_r, Hpe1. }
  { rewrite (inv_fifo s HI), not_elem_of_app in Hns.
    rewrite not_elem_of_app, not_elem_of_cons. split_and!; [apply Hns|done|apply not_elem_of_nil]. }
  rewrite exec_all_app in Hm2.
  destruct (exec_all (pending s) (mem s1)) as [m|] eqn:Hm; simpl in Hm2; [|done].
  exists s0, s1, k, s2, m. split_and!; try done.
  - rewrite Hex2. unfold executed. rewrite Htr1. subst s0. simpl.
    rewrite !omap_app. simpl. by rewrite !app_nil_r.
  - injection Hm2 as <-. simpl. by rewrite <- app_assoc.
  - intros m0. apply exec_PrintParams.
Qed.

Lemma params_captured_by_value_witness :
  exists s0 s1 k s2 m,
    step (Invoke 0 (CallDoSomethingWithParams 1234 5678)) main_before_shutdown = Some s0 /\
    caller_state 0 s0 = Ready /\
    dispatchQueue s0 = dispatchQueue main_before_shutdown ++ [PrintParams 1234 5678] /\
    run (assigns 0 [(0%nat, 10); (1%nat, 20)]) s0 = Some s1 /\
    run (replicate k Work) s1 = Some s2 /\
    executed s2 = executed main_before_shutdown ++ pending main_before_shutdown
                  ++ [PrintParams 1234 5678] /\
    exec_all (pending main_before_shutdown) (mem s1) = Some m /\
    cout (mem s2) = cout m ++ params_output 1234 5678 /\
    (forall m0, exists m1,
       exec (PrintParams 1234 5678) m0 = Some m1 /\
       cout m1 = cout m0 ++ params_output 1234 5678).
Proof.
  change 1234 with (load 0%nat (mem main_before_shutdown)).
  change 5678 with (load 1%nat (mem main_before_shutdown)).
  apply (params_captured_by_value main_before_shutdown 0 0%nat 1%nat
           [(0%nat, 10); (1%nat, 20)]).
  - apply main_before_shutdown_reachable.
  - vm_compute. reflexivity.
  - apply (bool_decide_unpack _). vm_compute. exact I.
Defined.

(** * Properties beyond the claims *)

(** ** The worker never faults *)

(** X1. In no reachable state has the worker faulted: [take] never reaches
    [front] or [pop] of an empty queue, and every pending operation can be
    executed, its promise being distinct from the promises of the other
    pending operations and not set yet, so that [set_value] does not throw. *)
Theorem worker_never_faults (s : State) :
  reachable s ->
  runnable s <> Faulted /\
  DispatchQueue.take (dispatchQueue s) <> DispatchQueue.Undefined /\
  NoDup (pending_promises s) /\
  (forall op, op ∈ pending s -> is_Some (exec op (mem s))) /\
  (forall s', step Work s = Some s' -> runnable s' <> Faulted).
Proof.
  intros Hs. pose proof (reachable_Inv s Hs) as HI. split_and!.
  - apply (inv_not_faulted s HI).
  - apply take_defined.
  - apply (pending_NoDup s (inv_promises s HI)).
  - intros op Hin. by apply exec_pending; [apply (inv_promises s HI)|].
  - intros s' Hstep. apply (inv_not_faulted s'). by eapply Inv_step.
Qed.

Lemma worker_never_faults_witness :
  runnable queued_three <> Faulted /\
  is_Some (exec (Return999 0%nat) (mem queued_three)).
Proof.
  destruct (worker_never_faults queued_three) as (Hnf & _ & _ & Hex & _).
  - apply (reachable_run
             [Invoke 1 CallDoSomethingElse; Invoke 2 (CallDoSomethingWithParams 5 7);
              Invoke 0 CallDoSomething] init); [apply reachable_init|].
    vm_compute. reflexivity.
  - split; [exact Hnf|]. apply Hex.
    apply (bool_decide_unpack _). vm_compute. exact I.
Defined.

(** ** The three shapes of a step *)

(** Seen from the queue, a step changes nothing, or puts one operation at
    the tail of the pending ones, or executes the oldest pending one. *)
Lemma step_shape a s s' :
  Inv s -> step a s = Some s' ->
  (pending s' = pending s /\ executed s' = executed s /\ pushed s' = pushed s /\
   done (mem s') = done (mem s) /\ promises (mem s') = promises (mem s) /\
   val (mem s') = val (mem s)) \/
  (exists o, pending s' = pending s ++ [o] /\ executed s' = executed s /\
             pushed s' = pushed s ++ [o] /\ mem s' = mem s) \/
  (exists o, pending s = o :: pending s' /\ executed s' = executed s ++ [o] /\
             pushed s' = pushed s /\ exec o (mem s) = Some (mem s') /\
             runnable s = Running o).
Proof.
  intros HI Hstep. pose proof (inv_promises s HI) as Hp.
  step_cases Hstep; no_fault.
  all: try (by left; obs).
  all: try (by right; left; eexists; obs; split_and!;
              [apply pending_app_assoc|done..]).
  right; right. exists op. obs. by split_and!.
Qed.

(** ** A blocking call is a barrier *)

Lemma flushing_put s s0 op :
  Inv s -> pending s0 = pending s ++ [op] -> executed s0 = executed s ->
  flushing (pushed s) op s0.
Proof.
  intros HI Hpe Hex. left. exists (pending s), []. split; [done|].
  rewrite Hex. symmetry. apply (inv_fifo s HI).
Qed.

Lemma flushing_step before op a s s' :
  Inv s -> flushing before op s -> step a s = Some s' -> flushing before op s'.
Proof.
  intros HI HF Hstep. unfold flushing in *.
  destruct (step_shape a s s' HI Hstep)
    as [(Hpe & Hex & _)|[(o & Hpe & Hex & _)|(o & Hpe & Hex & _)]].
  - by rewrite Hpe, Hex.
  - rewrite Hpe, Hex. destruct HF as [(ops & rest & Hpe0 & Hb)|HF]; [|by right].
    left. exists ops, (rest ++ [o]). split; [|done]. by rewrite Hpe0, <- app_assoc.
  - rewrite Hex. destruct HF as [(ops & rest & Hpe0 & Hb)|(more & Hm)].
    + rewrite Hpe in Hpe0. destruct ops as [|o' ops]; simpl in Hpe0; simplify_eq.
      * right. exists []. by rewrite app_nil_r.
      * left. exists ops, rest. split; [done|]. by rewrite <- app_assoc.
    + right. exists (more ++ [o]). rewrite Hm. by rewrite <- app_assoc.
Qed.

Lemma flushing_run before op acts : forall s s',
  Inv s -> flushing before op s -> run acts s = Some s' -> flushing before op s'.
Proof.
  induction acts as [|a acts IH]; simpl; intros s s' HI HF Hrun; [by simplify_eq|].
  destruct (step a s) as [s1|] eqn:Hstep; simpl in Hrun; [|done].
  eapply (IH s1); [by eapply Inv_step| |done]. by eapply flushing_step.
Qed.

(** Once the promise of the operation is set, the barrier was passed. *)
Lemma flushing_set before op p v s :
  Inv s -> op_promise op = Some p -> promises (mem s) !! p = Some v ->
  flushing before op s -> exists more, executed s = before ++ op :: more.
Proof.
  intros HI Hop Hset [(ops & rest & Hpe & _)|HF]; [|done].
  assert (Hun : promises (mem s) !! p = None); [|congruence].
  apply (pending_unset s (inv_promises s HI)). unfold pending_promises.
  apply list_elem_of_omap. exists op. split; [|done].
  rewrite Hpe, elem_of_app, elem_of_cons. auto.
Qed.

(** X2. When [doSomething] returns, every operation put before the call was
    made has been executed, in the order of the puts, and then the
    operation of the call itself: a blocking call flushes the queue. *)
Theorem doSomething_is_a_barrier (s s1 s2 : State) (t : nat) (acts : list action) :
  reachable s ->
  run (Invoke t CallDoSomething :: acts) s = Some s1 ->
  caller_state t s1 = InDoSomething (next_promise s) ->
  step (Resume t) s1 = Some s2 ->
  exists more, executed s2 = pushed s ++ Return999 (next_promise s) :: more.
Proof.
  intros Hs Hrun Ht Hres. pose proof (reachable_Inv s Hs) as HI.
  apply run_cons_inv in Hrun as (s0 & Hstep & Hrun).
  pose proof (Inv_step _ _ _ HI Hstep) as HI0.
  pose proof (Inv_run _ _ _ HI0 Hrun) as HI1.
  set (p := next_promise s) in *.
  assert (HF0 : flushing (pushed s) (Return999 p) s0).
  { simpl in Hstep. unfold invoke in Hstep. destruct (caller_state t s); simplify_eq.
    apply flushing_put; [done| |].
    - unfold pending, in_flight; simpl.
      unfold DispatchQueue.put, DispatchQueue.push. by rewrite app_assoc.
    - unfold executed; simpl. rewrite omap_app. simpl. by rewrite app_nil_r. }
  pose proof (flushing_run _ _ acts s0 s1 HI0 HF0 Hrun) as HF1.
  simpl in Hres. unfold resume in Hres. rewrite Ht in Hres.
  destruct (promises (mem s1) !! p) as [[v|]|] eqn:Hset; simplify_eq.
  destruct (flushing_set (pushed s) (Return999 p) p _ s1 HI1 eq_refl Hset HF1)
    as (more & Hm).
  exists more. rewrite executed_emit. simpl. by rewrite app_nil_r.
Qed.

Lemma queued_two_reachable : reachable queued_two.
Proof.
  apply (reachable_run [Invoke 1 CallDoSomethingElse;
                        Invoke 2 (CallDoSomethingWithParams 5 7)] init);
    [apply reachable_init|]. vm_compute. reflexivity.
Qed.

Lemma doSomething_is_a_barrier_witness :
  exists s2 more,
    step (Resume 0) (served_behind_two CallDoSomething) = Some s2 /\
    executed s2 = [SetVal; PrintParams 5 7] ++ Return999 0%nat :: more.
Proof.
  eexists. 
  destruct (doSomething_is_a_barrier queued_two (served_behind_two CallDoSomething)
              (default init (step (Resume 0) (served_behind_two CallDoSomething)))
              0 (replicate 9 Work)) as (more & Hm).
  - apply queued_two_reachable.
  - vm_compute. reflexivity.
  - vm_compute. reflexivity.
  - vm_compute. reflexivity.
  - exists more. split; [vm_compute; reflexivity|exact Hm].
Defined.

(** X3. When [doSomethingWithReferenceParams] returns, every operation put
    before the call was made has been executed, in the order of the puts,
    and then the operation of the call itself. *)
Theorem doSomethingWithReferenceParams_is_a_barrier
    (s s1 s2 : State) (t : nat) (a b : loc) (acts : list action) :
  reachable s ->
  run (Invoke t (CallDoSomethingWithReferenceParams a b) :: acts) s = Some s1 ->
  caller_state t s1 = InDoSomethingWithReferenceParams a b (next_promise s) ->
  step (Resume t) s1 = Some s2 ->
  exists more, executed s2 = pushed s ++ MutateRefs a b (next_promise s) :: more.
Proof.
  intros Hs Hrun Ht Hres. pose proof (reachable_Inv s Hs) as HI.
  apply run_cons_inv in Hrun as (s0 & Hstep & Hrun).
  pose proof (Inv_step _ _ _ HI Hstep) as HI0.
  pose proof (Inv_run _ _ _ HI0 Hrun) as HI1.
  set (p := next_promise s) in *.
  assert (HF0 : flushing (pushed s) (MutateRefs a b p) s0).
  { simpl in Hstep. unfold invoke in Hstep. destruct (caller_state t s); simplify_eq.
    apply flushing_put; [done| |].
    - unfold pending, in_flight; simpl.
      unfold DispatchQueue.put, DispatchQueue.push. by rewrite app_assoc.
    - unfold executed; simpl. rewrite omap_app. simpl. by rewrite app_nil_r. }
  pose proof (flushing_run _ _ acts s0 s1 HI0 HF0 Hrun) as HF1.
  simpl in Hres. unfold resume in Hres. rewrite Ht in Hres.
  destruct (promises (mem s1) !! p) as [[v|]|] eqn:Hset; simplify_eq.
  destruct (flushing_set (pushed s) (MutateRefs a b p) p _ s1 HI1 eq_refl Hset HF1)
    as (more & Hm).
  exists more. rewrite executed_emit. simpl. by rewrite app_nil_r.
Qed.

Lemma doSomethingWithReferenceParams_is_a_barrier_witness :
  exists s2 more,
    step (Resume 0) (served_behind_two (CallDoSomethingWithReferenceParams 0%nat 1%nat))
      = Some s2 /\
    executed s2 = [SetVal; PrintParams 5 7] ++ MutateRefs 0%nat 1%nat 0%nat :: more.
Proof.
  eexists.
  destruct (doSomethingWithReferenceParams_is_a_barrier queued_two
              (served_behind_two (CallDoSomethingWithReferenceParams 0%nat 1%nat))
              (default init
                 (step (Resume 0)
                    (served_behind_two (CallDoSomethingWithReferenceParams 0%nat 1%nat))))
              0 0%nat 1%nat (replicate 9 Work)) as (more & Hm).
  - apply queued_two_reachable.
  - vm_compute. reflexivity.
  - vm_compute. reflexivity.
  - vm_compute. reflexivity.
  - exists more. split; [vm_compute; reflexivity|exact Hm].
Defined.

(** ** The values of [val] *)

Lemma float_0_neq_2 : 0%float <> 2%float.
Proof.
  intros Heq. assert (Hb : PrimFloat.eqb 0 0 = PrimFloat.eqb 0 2) by (by rewrite <- Heq).
  vm_compute in Hb. discriminate.
Qed.

Lemma run_executed_mono acts : forall s s' op,
  run acts s = Some s' -> op ∈ executed s -> op ∈ executed s'.
Proof.
  induction acts as [|a acts IH]; simpl; intros s s' op Hrun Hin; [by simplify_eq|].
  destruct (step a s) as [s1|] eqn:Hstep; simpl in Hrun; [|done].
  eapply IH; [done|]. by eapply step_executed_mono.
Qed.

(** X4. The field [val] holds 0 or 2.0, nothing else, and it never goes back:
    once it holds 2.0, so once a [getVal] has returned 2.0, it holds 2.0 in
    every later state, whatever is called. *)
Theorem val_never_goes_back (s s' : State) (acts : list action) :
  reachable s -> run acts s = Some s' ->
  (val (mem s) = 0%float \/ val (mem s) = 2%float) /\
  (val (mem s) = 2%float -> val (mem s') = 2%float) /\
  (val (mem s') = 0%float -> val (mem s) = 0%float).
Proof.
  intros Hs Hrun. pose proof (reachable_Inv s Hs) as HI.
  pose proof (inv_val s HI) as Hv. pose proof (inv_val s' (Inv_run _ _ _ HI Hrun)) as Hv'.
  unfold val_ok in *.
  destruct (bool_decide (SetVal ∈ executed s)) eqn:Hb.
  - apply bool_decide_eq_true_1 in Hb.
    rewrite bool_decide_eq_true_2 in Hv' by by eapply run_executed_mono.
    split_and!; [by right|done|]. rewrite Hv'. intros Heq. by destruct float_0_neq_2.
  - split_and!; [by left| |done]. rewrite Hv. intros Heq. by destruct float_0_neq_2.
Qed.

Lemma val_never_goes_back_witness :
  val (mem queued_three) = 0%float /\
  val (mem (default init (run (replicate 3 Work) queued_three))) = 2%float /\
  val (mem (default init (run (replicate 3 Work ++ after_shutdown) queued_three))) = 2%float.
Proof.
  split_and!; [reflexivity..|].
  destruct (val_never_goes_back
              (default init (run (replicate 3 Work) queued_three))
              (default init (run (replicate 3 Work ++ after_shutdown) queued_three))
              after_shutdown) as (_ & Hkeep & _).
  - apply (reachable_run
             ([Invoke 1 CallDoSomethingElse; Invoke 2 (CallDoSomethingWithParams 5 7);
               Invoke 0 CallDoSomething] ++ replicate 3 Work) init); [apply reachable_init|].
    vm_compute. reflexivity.
  - vm_compute. reflexivity.
  - apply Hkeep. reflexivity.
Defined.

(** ** What a caller sees of its own calls *)



(** ** Blocking calls made after shutdown was requested *)

Lemma behind_step op a s s' :
  Inv s -> behind op s -> step a s = Some s' -> behind op s'.
Proof.
  intros HI (ops & rest & Hpe0 & Hb) Hstep. unfold behind.
  destruct (step_shape a s s' HI Hstep)
    as [(Hpe & _ & _ & Hd & _)|[(o & Hpe & _ & _ & Hm)|(o & Hpe & _ & _ & Hex & Hr)]].
  - rewrite Hpe, Hd. eauto.
  - rewrite Hpe, Hm. exists ops, (rest ++ [o]). split; [|done].
    by rewrite Hpe0, <- app_assoc.
  - pose proof (inv_done s HI) as Hdo. unfold done_ok in Hdo.
    destruct Hb as [Hd|Hin].
    { rewrite Hd, Hr in Hdo. by destruct Hdo as [_ [?|?]]. }
    rewrite Hpe in Hpe0. destruct ops as [|o' ops]; [by apply elem_of_nil in Hin|].
    simpl in Hpe0. simplify_eq. exists ops, rest. split; [done|].
    rewrite (exec_done _ _ _ Hex). apply elem_of_cons in Hin as [<-|Hin]; [|by right].
    left. by rewrite decide_True.
Qed.

Lemma behind_put s s0 op :
  Inv s -> SetDone ∈ pushed s ->
  done (mem s0) = done (mem s) -> pending s0 = pending s ++ [op] ->
  behind op s0.
Proof.
  intros HI Hin Hd Hpe. exists (pending s), []. split; [done|]. rewrite Hd.
  pose proof (inv_done s HI) as Hdo. unfold done_ok in Hdo.
  destruct (done (mem s)); [by left|right]. destruct Hdo as [Hni _].
  rewrite (inv_fifo s HI), elem_of_app in Hin. by destruct Hin.
Qed.

(** A caller waiting for an operation that is behind the sentinel stays
    where it is. *)
Lemma blocked_behind_step op p t a s s' :
  Inv s -> waits_for (caller_state t s) op p -> behind op s ->
  step a s = Some s' -> caller_state t s' = caller_state t s.
Proof.
  intros HI Hw (ops & rest & Hpe & _) Hstep.
  assert (Hun : promises (mem s) !! p = None).
  { apply (pending_unset s (inv_promises s HI)). unfold pending_promises.
    apply list_elem_of_omap. exists op. split.
    - rewrite Hpe, elem_of_app, elem_of_cons. auto.
    - by destruct Hw as [[_ ->]|(x & y & _ & ->)]. }
  assert (Hc : exists c, caller_state t s = c /\ c <> Ready /\
                         (forall q v, c = InDoSomething q ->
                                      promises (mem s) !! q <> Some (PInt v)) /\
                         (forall x y q, c = InDoSomethingWithReferenceParams x y q ->
                                        promises (mem s) !! q <> Some PVoid) /\
                         c <> InDestructor).
  { destruct Hw as [[Hc _]|(x & y & Hc & _)]; eexists; (split; [exact Hc|]).
    all: split_and!; try done; intros; simplify_eq; congruence. }
  destruct Hc as (c & Hc & Hnr & Hds & Hrp & Hnd). clear Hw Hpe.
  pose proof (inv_promises s HI) as Hp.
  step_cases Hstep; no_fault; try done.
  all: match goal with
       | E : caller_state ?t' _ = _ |- _ =>
           destruct (decide (t' = t)) as [->|Hne];
           [|unfold caller_state in *; obs; by rewrite lookup_insert_ne]
       end.
  all: try congruence.
  all: try (by edestruct Hds).
  all: try (by edestruct Hrp).
Qed.

(** X6. A blocking call made once shutdown was requested never returns:
    its operation stays pending behind the sentinel, its promise is never
    set, and the caller stays blocked whatever happens next. *)
Theorem blocking_call_after_shutdown_hangs (s s1 : State) (t : nat) (c : call)
    (acts : list action) :
  reachable s -> SetDone ∈ pushed s ->
  c = CallDoSomething \/ (exists a b, c = CallDoSomethingWithReferenceParams a b) ->
  run (Invoke t c :: acts) s = Some s1 ->
  caller_state t s1 <> Ready /\
  step (Resume t) s1 = None /\
  promises (mem s1) !! next_promise s = None.
Proof.
  intros Hs Hin Hc Hrun. pose proof (reachable_Inv s Hs) as HI.
  apply run_cons_inv in Hrun as (s0 & Hstep & Hrun).
  pose proof (Inv_step _ _ _ HI Hstep) as HI0.
  set (p := next_promise s) in *.
  assert (exists op, waits_for (caller_state t s0) op p /\ behind op s0) as (op & Hw0 & Hb0).
  { simpl in Hstep. unfold invoke in Hstep. destruct (caller_state t s); simplify_eq.
    destruct Hc as [->|(a & b & ->)].
    - exists (Return999 p). split.
      + left. split; [|done]. unfold caller_state; simpl. by rewrite lookup_insert_eq.
      + apply (behind_put s); [done..|]. unfold pending, in_flight; simpl.
        unfold DispatchQueue.put, DispatchQueue.push. by rewrite app_assoc.
    - exists (MutateRefs a b p). split.
      + right. exists a, b. split; [|done].
        unfold caller_state; simpl. by rewrite lookup_insert_eq.
      + apply (behind_put s); [done..|]. unfold pending, in_flight; simpl.
        unfold DispatchQueue.put, DispatchQueue.push. by rewrite app_assoc. }
  assert (Hend : waits_for (caller_state t s1) op p /\ behind op s1 /\ Inv s1).
  { clear Hstep. revert s0 HI0 Hw0 Hb0 Hrun.
    induction acts as [|a acts IH]; simpl; intros s0 HI0 Hw0 Hb0 Hrun; [by simplify_eq|].
    destruct (step a s0) as [s0'|] eqn:Hstep; simpl in Hrun; [|done].
    apply (IH s0'); [by eapply Inv_step| |by eapply behind_step|done].
    by rewrite (blocked_behind_step op p t a s0 s0'). }
  destruct Hend as (Hw1 & (ops & rest & Hpe & _) & HI1).
  assert (Hun : promises (mem s1) !! p = None).
  { apply (pending_unset s1 (inv_promises s1 HI1)). unfold pending_promises.
    apply list_elem_of_omap. exists op. split.
    - rewrite Hpe, elem_of_app, elem_of_cons. auto.
    - by destruct Hw1 as [[_ ->]|(x & y & _ & ->)]. }
  split_and!; [| |done].
  - by destruct Hw1 as [[-> _]|(x & y & -> & _)].
  - simpl. unfold resume. destruct Hw1 as [[-> _]|(x & y & -> & _)]; by rewrite Hun.
Qed.

Lemma blocking_call_after_shutdown_hangs_witness :
  caller_state 1 after_shutdown_final <> Ready /\
  step (Resume 1) after_shutdown_final = None /\
  promises (mem after_shutdown_final) !! 2%nat = None.
Proof.
  apply (blocking_call_after_shutdown_hangs
           (default init (run [Invoke 1 CallDoSomethingElse;
                               Invoke 2 (CallDoSomethingWithParams 1 2)] main_final))
           after_shutdown_final 1 CallDoSomething []).
  - apply (reachable_run [Invoke 1 CallDoSomethingElse;
                          Invoke 2 (CallDoSomethingWithParams 1 2)] main_final);
      [apply main_final_reachable|]. vm_compute. reflexivity.
  - apply (bool_decide_unpack _). vm_compute. exact I.
  - by left.
  - vm_compute. reflexivity.
Defined.

(** ** The executions of [main] *)

Example main_schedule_is_an_execution :
  main_schedule =
  main_execution 0 (fun i => match i with 1 => 3 | 7 => 9 | 10 => 4 | _ => 0 end)%nat.
Proof. reflexivity. Qed.

Lemma step_view a s s' : step a s = Some s' -> view_of s' = view_step a (view_of s).
Proof.
  intros Hstep. unfold view_of, view_step.
  step_cases Hstep; unfold caller_state; obs; try done.
  all: try (case_decide as Ht; [subst; by rewrite lookup_insert_eq
                               |by rewrite lookup_insert_ne]).
  all: by rewrite ?app_nil_r.
Qed.

Lemma works_view k s s' : run (replicate k Work) s = Some s' -> view_of s' = view_of s.
Proof.
  revert s. induction k as [|k IH]; simpl; intros s Hrun; [by simplify_eq|].
  destruct (run_step s) as [s1|] eqn:Hstep; simpl in Hrun; [|done].
  rewrite (IH s1 Hrun). apply (step_view Work s s1 Hstep).
Qed.

Lemma run_works_inv k a rest s s' :
  run (replicate k Work ++ a :: rest) s = Some s' ->
  exists sa sb, run (replicate k Work) s = Some sa /\ step a sa = Some sb /\
                run rest sb = Some s'.
Proof.
  rewrite run_app. destruct (run (replicate k Work) s) as [sa|]; simpl; [|done].
  destruct (step a sa) as [sb|] eqn:Hstep; simpl; [|done].
  intros Hrun. by exists sa, sb.
Qed.

Lemma step_trace_mono a s s' e : step a s = Some s' -> e ∈ trace s -> e ∈ trace s'.
Proof.
  intros Hstep Hin. step_cases Hstep; obs; try done.
  all: rewrite ?elem_of_app; auto.
Qed.

Lemma run_trace_mono acts : forall s s' e,
  run acts s = Some s' -> e ∈ trace s -> e ∈ trace s'.
Proof.
  induction acts as [|a acts IH]; simpl; intros s s' e Hrun Hin; [by simplify_eq|].
  destruct (step a s) as [s1|] eqn:Hstep; simpl in Hrun; [|done].
  eapply IH; [done|]. by eapply step_trace_mono.
Qed.

Lemma run_promises_mono acts : forall s s' p v,
  run acts s = Some s' ->
  promises (mem s) !! p = Some v -> promises (mem s') !! p = Some v.
Proof.
  induction acts as [|a acts IH]; simpl; intros s s' p v Hrun Hset; [by simplify_eq|].
  destruct (step a s) as [s1|] eqn:Hstep; simpl in Hrun; [|done].
  eapply IH; [done|]. by eapply step_promises_mono.
Qed.

Lemma works_untouched k (x y : loc) :
  Forall (fun act => ~ touches act x /\ ~ touches act y) (replicate k Work).
Proof. apply Forall_forall. intros act ->%elem_of_replicate_inv. split; by intros []. Qed.

(** What each action of [main] establishes. *)
Lemma resume_doSomething t p n P s s' :
  Inv s -> view_of s = (InDoSomething p, n, P) -> t = 0%nat ->
  step (Resume t) s = Some s' ->
  EvReturn 0 CallDoSomething (RetInt 999) ∈ trace s'.
Proof.
  intros HI Hv -> Hstep. injection Hv as Hc _ _.
  pose proof (inv_events s' (Inv_step _ _ _ HI Hstep)) as He.
  simpl in Hstep. unfold resume in Hstep. rewrite Hc in Hstep.
  destruct (promises (mem s) !! p) as [[v|]|]; simplify_eq.
  assert (Hin : EvReturn 0 CallDoSomething (RetInt v) ∈
                trace (emit [EvReturn 0 CallDoSomething (RetInt v)] (with_caller 0 Ready s))).
  { simpl. rewrite elem_of_app, list_elem_of_singleton. by right. }
  pose proof (He _ Hin) as Hv. simpl in Hv. by simplify_eq.
Qed.

Lemma invoke_refparams a b c n P s s' :
  Inv s -> view_of s = (c, n, P) ->
  step (Invoke 0 (CallDoSomethingWithReferenceParams a b)) s = Some s' ->
  in_progress a b n s' /\ flushing P (MutateRefs a b n) s'.
Proof.
  intros HI Hv Hstep. injection Hv as _ <- <-.
  simpl in Hstep. unfold invoke in Hstep. destruct (caller_state 0 s); simplify_eq.
  assert (Hpe : pending (doSomethingWithReferenceParams 0 a b s)
                = pending s ++ [MutateRefs a b (next_promise s)]).
  { unfold pending, in_flight; simpl.
    unfold DispatchQueue.put, DispatchQueue.push. by rewrite app_assoc. }
  split.
  - left. exists (pending s), []. by split.
  - apply flushing_put; [done..|].
    unfold executed; simpl. rewrite omap_app. simpl. by rewrite app_nil_r.
Qed.

Lemma resume_refparams a b p n P s s' :
  view_of s = (InDoSomethingWithReferenceParams a b p, n, P) ->
  step (Resume 0) s = Some s' ->
  promises (mem s') !! p = Some PVoid.
Proof.
  intros Hv Hstep. injection Hv as Hc _ _.
  simpl in Hstep. unfold resume in Hstep. rewrite Hc in Hstep.
  by destruct (promises (mem s) !! p) as [[v|]|] eqn:Hset; simplify_eq.
Qed.

Lemma invoke_getVal s s' :
  Inv s -> step (Invoke 0 CallGetVal) s = Some s' ->
  EvReturn 0 CallGetVal (RetDouble (val (mem s))) ∈ trace s' /\
  (val (mem s) = 0%float \/ val (mem s) = 2%float) /\
  (SetVal ∈ executed s -> val (mem s) = 2%float).
Proof.
  intros HI Hstep. simpl in Hstep. unfold invoke in Hstep.
  destruct (caller_state 0 s); simplify_eq. split_and!.
  - unfold getVal; simpl. rewrite elem_of_app, !elem_of_cons. auto.
  - rewrite (inv_val s HI). case_bool_decide; auto.
  - intros Hin. rewrite (inv_val s HI). by rewrite bool_decide_eq_true_2.
Qed.

Lemma resume_destructor n P s s' :
  view_of s = (InDestructor, n, P) -> step (Resume 0) s = Some s' ->
  runnable s' = Exited.
Proof.
  intros Hv Hstep. injection Hv as Hc _ _.
  simpl in Hstep. unfold resume in Hstep. rewrite Hc in Hstep.
  by destruct (runnable s) eqn:Hr; simplify_eq.
Qed.

(** Once [run] has returned, what was put up to the sentinel was executed. *)
Lemma finished s c n P :
  Inv s -> runnable s = Exited -> view_of s = (c, n, P ++ [SetDone]) ->
  SetDone ∉ P -> SetVal ∈ P ->
  dispatchQueue s = [] /\ executed s = pushed s /\ val (mem s) = 2%float.
Proof.
  intros HI Hr Hv Hns Hin. injection Hv as _ _ Hpu.
  pose proof (inv_done s HI) as Hdo. unfold done_ok in Hdo.
  destruct (done (mem s)); [|by destruct Hdo].
  destruct Hdo as [(pre & Hex & Hpre) _].
  pose proof (inv_fifo s HI) as Hf. unfold fifo_ok, pending, in_flight in Hf.
  rewrite Hr, Hex, Hpu in Hf. simpl in Hf. rewrite <- app_assoc in Hf. simpl in Hf.
  destruct (not_elem_of_app_cons_inv_l _ _ _ _ _ _ Hpre Hns Hf) as (<- & _ & Hq).
  split_and!; [done|congruence|].
  rewrite (inv_val s HI), bool_decide_eq_true_2; [done|].
  rewrite Hex, elem_of_app. by left.
Qed.

(** Following an execution of [main] action by action: what is known of the
    state before a block of worker actions and an action of a caller is
    carried to the state after. *)
Ltac carry_run Hw s0 s1 :=
  repeat match goal with
    | H : flushing _ _ s0, HI : Inv s0 |- _ =>
        pose proof (flushing_run _ _ _ _ _ HI H Hw); clear H
    | H : in_progress _ _ _ s0, HI : Inv s0 |- _ =>
        pose proof (in_progress_run _ _ _ _ _ _ HI (works_untouched _ _ _) H Hw); clear H
    | H : _ ∈ trace s0 |- _ => pose proof (run_trace_mono _ _ _ _ Hw H); clear H
    | H : _ ∈ executed s0 |- _ => pose proof (run_executed_mono _ _ _ _ Hw H); clear H
    | H : promises (mem s0) !! _ = Some _ |- _ =>
        pose proof (run_promises_mono _ _ _ _ _ Hw H); clear H
    end;
  repeat match goal with
    | H : view_of s0 = _ |- _ =>
        let H' := fresh "HV" in
        pose proof (works_view _ _ _ Hw) as H'; rewrite H in H'; clear H
    | H : Inv s0 |- _ => pose proof (Inv_run _ _ _ H Hw); clear H
    end.

Ltac carry_step Hst s0 s1 :=
  repeat match goal with
    | H : flushing _ _ s0, HI : Inv s0 |- _ =>
        pose proof (flushing_step _ _ _ _ _ HI H Hst); clear H
    | H : in_progress _ _ _ s0, HI : Inv s0 |- _ =>
        let H' := fresh "HK" in
        assert (H' := fun Ha Hb => in_progress_step _ _ _ _ _ _ HI Ha Hb H Hst);
        specialize (H' ltac:(simpl; intros []) ltac:(simpl; intros [])); clear H
    | H : _ ∈ trace s0 |- _ => pose proof (step_trace_mono _ _ _ _ Hst H); clear H
    | H : _ ∈ executed s0 |- _ => pose proof (step_executed_mono _ _ _ _ Hst H); clear H
    | H : promises (mem s0) !! _ = Some _ |- _ =>
        pose proof (step_promises_mono _ _ _ _ _ Hst H); clear H
    end;
  repeat match goal with
    | H : view_of s0 = _ |- _ =>
        let H' := fresh "HV" in
        pose proof (step_view _ _ _ Hst) as H'; rewrite H in H'; simpl in H'; clear H
    | H : Inv s0 |- _ => pose proof (Inv_step _ _ _ H Hst); clear H
    end.

Ltac main_action a Hst s0 s1 :=
  lazymatch a with
  | Resume _ =>
      lazymatch goal with
      | HV : view_of s0 = (InDoSomething _, _, _), HI : Inv s0 |- _ =>
          pose proof (resume_doSomething _ _ _ _ _ _ HI HV eq_refl Hst)
      | HV : view_of s0 = (InDoSomethingWithReferenceParams _ _ _, _, _) |- _ =>
          pose proof (resume_refparams _ _ _ _ _ _ _ HV Hst)
      | HV : view_of s0 = (InDestructor, _, _) |- _ =>
          pose proof (resume_destructor _ _ _ _ HV Hst)
      end
  | Invoke _ (CallDoSomethingWithReferenceParams _ _) =>
      lazymatch goal with
      | HV : view_of s0 = _, HI : Inv s0 |- _ =>
          let HK := fresh "HK" in let HF := fresh "HF" in
          destruct (invoke_refparams _ _ _ _ _ _ _ HI HV Hst) as [HK HF]
      end
  | Invoke _ CallGetVal =>
      lazymatch goal with
      | HI : Inv s0 |- _ =>
          let Hin := fresh "Hget" in let Hor := fresh "Hor" in let Htwo := fresh "Htwo" in
          destruct (invoke_getVal _ _ HI Hst) as (Hin & Hor & Htwo);
          try match goal with
              | Hx : SetVal ∈ executed s0 |- _ => specialize (Htwo Hx)
              end
      end
  | _ => idtac
  end.

(** After the return of the blocking call, what was put before it was
    executed. *)
Ltac passed_barrier s1 :=
  try match goal with
    | HF : flushing ?B ?op s1, HP : promises (mem s1) !! ?p = Some _, HI : Inv s1 |- _ =>
        let more := fresh "more" in let Hm := fresh "Hm" in
        destruct (flushing_set B op p _ s1 HI eq_refl HP HF) as (more & Hm);
        clear HF;
        try (assert (SetVal ∈ executed s1)
               by (rewrite Hm, elem_of_app; left; apply (bool_decide_unpack _);
                   vm_compute; exact I));
        clear Hm
    end.

Ltac advance Hrun :=
  lazymatch type of Hrun with
  | run (replicate _ Work ++ ?a :: _) ?s0 = Some _ =>
      let sa := fresh "sa" in let sb := fresh "sb" in
      let Hw := fresh "Hw" in let Hst := fresh "Hst" in
      apply run_works_inv in Hrun as (sa & sb & Hw & Hst & Hrun);
      carry_run Hw s0 sa;
      main_action a Hst sa sb;
      carry_step Hst sa sb;
      passed_barrier sb;
      clear Hw
  end.

Ltac unless_vacuous tac :=
  let Hc := fresh "Hc" in
  intros Hc; first [solve [vm_compute in Hc; lia]|clear Hc; tac].

Ltac main_facts :=
  split_and!;
  [ unless_vacuous ltac:(assumption)
  | unless_vacuous ltac:(
      idtac; lazymatch goal with
      | HK : in_progress _ _ ?p ?s, HP : promises (mem ?s) !! ?p = Some PVoid,
        HI : Inv ?s |- _ =>
          let Ha := fresh "Ha" in let Hb := fresh "Hb" in
          destruct (in_progress_set _ _ _ _ HI HK HP) as [Hb Ha];
          split; [apply Ha; discriminate|exact Hb]
      end)
  | unless_vacuous ltac:(
      eexists; split_and!; [eassumption|eassumption|intros; first [assumption|lia]])
  | unless_vacuous ltac:(
      idtac; lazymatch goal with
      | HV : view_of ?s = (_, _, [?o1; ?o2; ?o3; ?o4; SetDone]), HI : Inv ?s,
        Hr : runnable ?s = Exited |- _ =>
          split; [exact Hr|];
          apply (finished s _ _ [o1; o2; o3; o4] HI Hr HV);
          apply (bool_decide_unpack _); vm_compute; exact I
      end) ].

Ltac follow_main Hrun :=
  simpl in Hrun; repeat advance Hrun; simpl in Hrun; simplify_eq; main_facts.

Lemma main_actions_late slot : (5 <= slot)%nat -> main_actions slot = main_actions 5.
Proof.
  intros Hs. unfold main_actions.
  by rewrite (take_ge main_beside_t1 slot), (drop_ge main_beside_t1 slot)
    by (simpl; lia).
Qed.

Lemma main_actions_length slot : length (main_actions slot) = 11%nat.
Proof.
  unfold main_actions. rewrite !length_app. simpl.
  rewrite length_app, length_take, length_drop. simpl. lia.
Qed.

(** X7. At every point of every execution of [main], whenever [t1] acts and
    whatever the pace of the worker: once [doSomething] has returned, it has
    returned 999; from the return of [doSomethingWithReferenceParams] on,
    [a] holds 1234 and [b] holds 5678; [getVal] returns 0 or 2.0, and 2.0 if
    [t1] has put its operation before the main thread put the one of
    [doSomethingWithReferenceParams]; and when the destructor has returned,
    the worker has left [run], the queue is empty, every operation put was
    executed and [val] holds 2.0. *)
Theorem main_assertions (slot stop : nat) (k : nat -> nat) (s : State) :
  run (with_works k 0 (take stop (main_actions slot))) init = Some s ->
  ((1 <= times (Resume 0) (take stop (main_actions slot)))%nat ->
   EvReturn 0 CallDoSomething (RetInt 999) ∈ trace s) /\
  ((2 <= times (Resume 0) (take stop (main_actions slot)))%nat ->
   load 0%nat (mem s) = 1234 /\ load 1%nat (mem s) = 5678) /\
  ((1 <= times (Invoke 0 CallGetVal) (take stop (main_actions slot)))%nat ->
   exists x, EvReturn 0 CallGetVal (RetDouble x) ∈ trace s /\
             (x = 0%float \/ x = 2%float) /\ ((slot <= 3)%nat -> x = 2%float)) /\
  ((3 <= times (Resume 0) (take stop (main_actions slot)))%nat ->
   runnable s = Exited /\ dispatchQueue s = [] /\ executed s = pushed s /\
   val (mem s) = 2%float).
Proof.
  intros Hrun. pose proof Inv_init as HI.
  assert (HV : view_of init = (Ready, 0%nat, [])) by reflexivity.
  destruct slot as [|[|[|[|[|slot]]]]].
  6: rewrite (main_actions_late (S (S (S (S (S slot)))))) in * by lia.
  all: do 11 (destruct stop as [|stop]; [by follow_main Hrun|]).
  all: rewrite take_ge in * by (rewrite main_actions_length; lia).
  all: by follow_main Hrun.
Qed.

Lemma main_assertions_witness :
  EvReturn 0 CallDoSomething (RetInt 999) ∈ trace main_final /\
  load 0%nat (mem main_final) = 1234 /\
  val (mem main_final) = 2%float.
Proof.
  pose (k := fun i : nat => match i with 1 => 3 | 7 => 9 | 10 => 4 | _ => 0 end%nat).
  assert (Hrun : run (with_works k 0 (take 11 (main_actions 0))) init = Some main_final)
    by (vm_compute; reflexivity).
  destruct (main_assertions 0 11 k main_final Hrun) as (Hi & Hab & _ & Hend).
  split_and!.
  - apply Hi. vm_compute. lia.
  - apply Hab. vm_compute. lia.
  - apply Hend. vm_compute. lia.
Defined.

(** X8. The last assertion of [main] can fail: when [t1] puts its operation
    after the main thread put the one of [doSomethingWithReferenceParams],
    there is an execution of [main], run to the end, in which [getVal]
    returns 0. *)
Theorem main_getVal_may_return_0 (slot : nat) :
  (4 <= slot)%nat ->
  exists k s, run (main_execution slot k) init = Some s /\
              runnable s = Exited /\
              EvReturn 0 CallGetVal (RetDouble 0) ∈ trace s.
Proof.
  intros Hs. unfold main_execution.
  destruct (decide (5 <= slot)%nat) as [Hl|Hl].
  - rewrite main_actions_late by done.
    exists (late_pace 5). eexists. split; [vm_compute; reflexivity|].
    split; [reflexivity|]. simpl.
    repeat first [apply list_elem_of_here|apply list_elem_of_further].
  - assert (slot = 4%nat) as -> by lia.
    exists (late_pace 4). eexists. split; [vm_compute; reflexivity|].
    split; [reflexivity|]. simpl.
    repeat first [apply list_elem_of_here|apply list_elem_of_further].
Qed.

Lemma main_getVal_may_return_0_witness :
  exists k s, run (main_execution 4 k) init = Some s /\
              runnable s = Exited /\
              EvReturn 0 CallGetVal (RetDouble 0) ∈ trace s.
Proof. apply (main_getVal_may_return_0 4). lia. Defined.
